(** * GazeCraft: the gaze-directed voxel interaction and locomotion core

    A shallow embedding of [src/components/GameScene.tsx] (the per-frame
    loop [animate], the terrain query [getTerrainHeightAt] and the action
    executor [performAction]) together with the declarations of
    [types.ts] and the initial values of [App.tsx] they depend on.

    Modelling conventions.
    - A JavaScript [number] that the program only ever uses as a count or a
      block coordinate is a [Z]; every other [number] (pointer position,
      screen width, avatar position, rotation, clock readings, dwell time)
      is an exact rational [Q].  Rounding error of IEEE doubles is not
      modelled, and [Q]'s division agrees with JavaScript's only for a
      non-zero divisor, so statements that divide assume the divisor
      positive.
    - A React state cell and the mutable ref that mirrors it are two fields
      of one [Store]; [commit] is the block of [useEffect] hooks that copies
      every state cell into its ref after a render.
    - What the frame reads from the browser (pointer, window width, the
      ray caster's hit list, [performance.now()], [Date.now()]) is a
      [FrameInput]; [Math.sin] and [Math.cos] are parameters of the section
      that embeds the loop.
    - Between two frames the browser delivers the pointer position and the
      HUD's walk intent, React renders, and the effects run ([between]);
      a turn of the loop is [between] followed by [animate].  Reloading
      the world (a new chunk) is not part of the runs considered.
    - Rendering-only state (camera pose, limb angles, textures, meshes) is
      left out; the instanced mesh is present exactly when the block list
      is not empty. *)

From Stdlib Require Import ZArith QArith Qround Qminmax Qabs Lia Lqa.
From stdpp Require Import gmap strings list fin_maps pretty.

Local Open Scope Q_scope.

(** ** types.ts *)

Module Vector3.
Record t : Type := mk { x : Q; y : Q; z : Q }.
End Vector3.

Inductive BlockType : Type :=
  | AIR | GRASS | DIRT | STONE | WOOD | LEAVES | SAND | WATER
  | COAL_ORE | DIAMOND_ORE | BEDROCK | PLANK | BRICK | GLASS
  | FLOWER | SNOW | SANDSTONE.

#[global] Instance BlockType_eq_dec : EqDecision BlockType.
Proof. solve_decision. Defined.

(** The string a [BlockType] is at run time: the key it indexes an
    [Inventory] with. *)
Definition BlockType_key (t : BlockType) : string :=
  match t with
  | AIR => "AIR" | GRASS => "GRASS" | DIRT => "DIRT" | STONE => "STONE"
  | WOOD => "WOOD" | LEAVES => "LEAVES" | SAND => "SAND" | WATER => "WATER"
  | COAL_ORE => "COAL_ORE" | DIAMOND_ORE => "DIAMOND_ORE"
  | BEDROCK => "BEDROCK" | PLANK => "PLANK" | BRICK => "BRICK"
  | GLASS => "GLASS" | FLOWER => "FLOWER" | SNOW => "SNOW"
  | SANDSTONE => "SANDSTONE"
  end.

Module BlockData.
Record t : Type := mk { id : string; type : BlockType; x : Z; y : Z; z : Z }.
End BlockData.

Inductive GameMode : Type := MINE | BUILD.

(** [interface Inventory { [key: string]: number }] *)
Abbreviation Inventory := (gmap string Z).

Module GameSettings.
Record t : Type := mk {
  dwellTime : Q;
  cursorSize : Q;
  highContrast : bool;
  moveSpeed : Q;
  turnSpeed : Q
}.
End GameSettings.

Module PlayerState.
Record t : Type := mk {
  position : Vector3.t;
  rotation : Q;
  isWalking : bool
}.
End PlayerState.

(** ** App.tsx: initial values *)

Definition INITIAL_SETTINGS : GameSettings.t :=
  GameSettings.mk 1000 48 false 0.1 0.03.

Definition INITIAL_PLAYER : PlayerState.t :=
  PlayerState.mk (Vector3.mk 16 3 16) 0 false.

Definition INITIAL_INVENTORY : Inventory :=
  <["DIRT" := 0%Z]> (<["WOOD" := 5%Z]> (<["STONE" := 0%Z]> ∅)).

(** The 32 x 32 loading chunk: bedrock at height 0 and grass at height 1 in
    every column, in the order the two nested loops push them. *)
Definition LOADING_CHUNK_blocks : list BlockData.t :=
  flat_map (fun x : nat =>
    flat_map (fun z : nat =>
      [ BlockData.mk ("base-" +:+ pretty x +:+ "-" +:+ pretty z) BEDROCK
          (Z.of_nat x) 0 (Z.of_nat z);
        BlockData.mk ("grass-" +:+ pretty x +:+ "-" +:+ pretty z) GRASS
          (Z.of_nat x) 1 (Z.of_nat z) ])
      (seq 0 32))
    (seq 0 32).

(** ** GameScene.tsx: the scene's mutable state *)

(** [interactionRef]: the dwell target. *)
Module Interaction.
Record t : Type := mk {
  targetId : option nat;
  startTime : option Q;
  faceNormal : option Vector3.t
}.
End Interaction.

(** What the loop reads of a [THREE.Intersection]: [hit.instanceId] (may
    be undefined) and [hit.face?.normal] (the face may be missing). *)
Module Intersection.
Record t : Type := mk {
  instanceId : option nat;
  face_normal : option Vector3.t
}.
End Intersection.

Record Store : Type := mkStore {
  (* state owned by App and handed down as props *)
  settings : GameSettings.t;
  mode : GameMode;
  selectedBlockType : BlockType;
  inventory : Inventory;
  mousePos : Q * Q;
  playerState : PlayerState.t;
  (* state owned by GameScene *)
  localBlocks : list BlockData.t;
  (* refs *)
  playerStateRef : PlayerState.t;
  mousePosRef : Q * Q;
  localBlocksRef : list BlockData.t;
  modeRef : GameMode;
  inventoryRef : Inventory;
  selectedBlockRef : BlockType;
  dwellTimeRef : Q;
  interactionRef : Interaction.t;
  (* the loop's closure variable and the avatar's scene node *)
  walkCycle : Q;
  playerGroup : Vector3.t * Q
}.

Definition set_inventory (v : Inventory) (s : Store) : Store :=
  mkStore (settings s) (mode s) (selectedBlockType s) v (mousePos s)
    (playerState s) (localBlocks s) (playerStateRef s) (mousePosRef s)
    (localBlocksRef s) (modeRef s) (inventoryRef s) (selectedBlockRef s)
    (dwellTimeRef s) (interactionRef s) (walkCycle s) (playerGroup s).

Definition set_localBlocks (v : list BlockData.t) (s : Store) : Store :=
  mkStore (settings s) (mode s) (selectedBlockType s) (inventory s)
    (mousePos s) (playerState s) v (playerStateRef s) (mousePosRef s)
    (localBlocksRef s) (modeRef s) (inventoryRef s) (selectedBlockRef s)
    (dwellTimeRef s) (interactionRef s) (walkCycle s) (playerGroup s).

Definition set_playerState (v : PlayerState.t) (s : Store) : Store :=
  mkStore (settings s) (mode s) (selectedBlockType s) (inventory s)
    (mousePos s) v (localBlocks s) (playerStateRef s) (mousePosRef s)
    (localBlocksRef s) (modeRef s) (inventoryRef s) (selectedBlockRef s)
    (dwellTimeRef s) (interactionRef s) (walkCycle s) (playerGroup s).

Definition set_mousePos (v : Q * Q) (s : Store) : Store :=
  mkStore (settings s) (mode s) (selectedBlockType s) (inventory s)
    v (playerState s) (localBlocks s) (playerStateRef s) (mousePosRef s)
    (localBlocksRef s) (modeRef s) (inventoryRef s) (selectedBlockRef s)
    (dwellTimeRef s) (interactionRef s) (walkCycle s) (playerGroup s).

Definition set_settings (v : GameSettings.t) (s : Store) : Store :=
  mkStore v (mode s) (selectedBlockType s) (inventory s)
    (mousePos s) (playerState s) (localBlocks s) (playerStateRef s)
    (mousePosRef s) (localBlocksRef s) (modeRef s) (inventoryRef s)
    (selectedBlockRef s) (dwellTimeRef s) (interactionRef s) (walkCycle s)
    (playerGroup s).

Definition set_interactionRef (v : Interaction.t) (s : Store) : Store :=
  mkStore (settings s) (mode s) (selectedBlockType s) (inventory s)
    (mousePos s) (playerState s) (localBlocks s) (playerStateRef s)
    (mousePosRef s) (localBlocksRef s) (modeRef s) (inventoryRef s)
    (selectedBlockRef s) (dwellTimeRef s) v (walkCycle s) (playerGroup s).

Definition set_avatar (w : Q) (g : Vector3.t * Q) (s : Store) : Store :=
  mkStore (settings s) (mode s) (selectedBlockType s) (inventory s)
    (mousePos s) (playerState s) (localBlocks s) (playerStateRef s)
    (mousePosRef s) (localBlocksRef s) (modeRef s) (inventoryRef s)
    (selectedBlockRef s) (dwellTimeRef s) (interactionRef s) w g.

(** The seven "Sync refs" effects, run by React after a render: every ref
    takes the value of the prop or state cell it mirrors.  [dwellTime] is
    the prop App passes as [settings.dwellTime]. *)
Definition commit (s : Store) : Store :=
  mkStore (settings s) (mode s) (selectedBlockType s) (inventory s)
    (mousePos s) (playerState s) (localBlocks s)
    (playerState s) (mousePos s) (localBlocks s) (mode s) (inventory s)
    (selectedBlockType s) (GameSettings.dwellTime (settings s))
    (interactionRef s) (walkCycle s) (playerGroup s).

(** The refs the action executor reads agree with the state they mirror. *)
Definition synced (s : Store) : Prop :=
  localBlocksRef s = localBlocks s /\ inventoryRef s = inventory s
  /\ modeRef s = mode s /\ selectedBlockRef s = selectedBlockType s.

(** ** Numbers *)

(** [Math.round]: the nearest integer, halves towards plus infinity. *)
Definition Math_round (v : Q) : Z := Qfloor (v + (1 # 2)).

Definition Qltb (a b : Q) : bool := negb (Qle_bool b a).

(** ** getTerrainHeightAt *)

(** [!['AIR', 'FLOWER', 'WATER'].includes(type)] *)
Definition solid (t : BlockType) : bool :=
  negb (bool_decide (t ∈ [AIR; FLOWER; WATER])).

Definition getTerrainHeightAt (x z : Q) (blocks : list BlockData.t) : Z :=
  let rx := Math_round x in
  let rz := Math_round z in
  fold_left
    (fun (maxY : Z) (b : BlockData.t) =>
       if ((BlockData.x b =? rx) && (BlockData.z b =? rz))%Z then
         if solid (BlockData.type b) then
           if (BlockData.y b >? maxY)%Z then BlockData.y b else maxY
         else maxY
       else maxY)
    blocks (-10)%Z.

(** ** performAction *)

(** [v || 0] on an inventory entry: a missing entry and a zero are falsy. *)
Definition or0 (v : option Z) : Z :=
  match v with
  | Some n => if (n =? 0)%Z then 0%Z else n
  | None => 0%Z
  end.

(** [hit] is received and never read; [dateNow] is what [Date.now()]
    returns when the placed block's id is minted. *)
Definition performAction (index : nat) (hit : Intersection.t) (dateNow : Z)
    (st : Store) : Store :=
  let blocks := localBlocksRef st in
  let currentInv := inventoryRef st in
  let currentMode := modeRef st in
  let selected := selectedBlockRef st in
  match blocks !! index with
  | None => st
  | Some targetBlock =>
    match currentMode with
    | MINE =>
      if bool_decide (BlockData.type targetBlock = BEDROCK) then st
      else
        let key := BlockType_key (BlockData.type targetBlock) in
        let newInv := <[key := (or0 (currentInv !! key) + 1)%Z]> currentInv in
        let newBlocks := delete index blocks in
        set_localBlocks newBlocks (set_inventory newInv st)
    | BUILD =>
      match Interaction.faceNormal (interactionRef st) with
      | None => st
      | Some normal =>
        let newX := Math_round (inject_Z (BlockData.x targetBlock) + Vector3.x normal) in
        let newY := Math_round (inject_Z (BlockData.y targetBlock) + Vector3.y normal) in
        let newZ := Math_round (inject_Z (BlockData.z targetBlock) + Vector3.z normal) in
        let newBlock :=
          BlockData.mk ("placed-" +:+ pretty dateNow) selected newX newY newZ in
        let newInv := currentInv in
        set_localBlocks (localBlocks st ++ [newBlock]) (set_inventory newInv st)
      end
    end
  end.

(** ** animate: one frame of the game loop *)

(** What one frame reads from the browser.  [pointer] is the position the
    last [mousemove] left in [mousePos], and [overWalkZone] tells whether
    it rests in the HUD's walk zone; [intersects] is what the ray caster
    returns for this frame's pointer and camera, nearest hit first; the
    three clock readings are the three calls of [performance.now()], in
    program order. *)
Record FrameInput : Type := mkFrame {
  pointer : Q * Q;
  overWalkZone : bool;
  innerWidth : Q;
  intersects : list Intersection.t;
  nowAcquire : Q;
  nowElapsed : Q;
  nowRestart : Q;
  dateNow : Z
}.

(** What one frame tells the outside: the calls of the [onHoverChange]
    callback, and a mark for each call of [performAction]. *)
Inductive Event : Type :=
  | HoverChange (isHovering : bool) (progress : Q)
  | PerformAction (index : nat).

Definition speed : Q := 0.04.
Definition rotSpeed : Q := 0.008.

(** Lines 380-389: the rotation after this frame's turn. *)
Definition turn (screenW mx rot : Q) : Q :=
  let zoneSize := screenW * 0.2 in
  if Qltb mx zoneSize then
    let intensity := 1 - (mx / zoneSize) in
    rot + rotSpeed * (0.5 + intensity * 0.5)
  else if Qltb (screenW - zoneSize) mx then
    let intensity := (mx - (screenW - zoneSize)) / zoneSize in
    rot - rotSpeed * (0.5 + intensity * 0.5)
  else rot.

(** Lines 410-415: the height the avatar is steered to. *)
Definition groundHeight (x z : Q) (blocks : list BlockData.t) : Q :=
  if (0 <? length blocks)%nat then inject_Z (getTerrainHeightAt x z blocks)
  else -10.

Definition targetHeight (x z : Q) (blocks : list BlockData.t) : Q :=
  let groundY := groundHeight x z blocks in
  let groundY := if Qltb groundY 1 then 1 else groundY in
  groundY + 1.0.

(** Lines 417-423: one step of the vertical integration. *)
Definition verticalStep (y targetY : Q) : Q :=
  if Qltb y targetY then
    let y1 := y + 0.2 in
    if Qltb targetY y1 then targetY else y1
  else if Qltb targetY y then
    let y1 := y - 0.1 in
    if Qltb y1 targetY then targetY else y1
  else y.

(** [Math.abs(a - b) > 0.001] *)
Definition differs (a b : Q) : bool := Qltb 0.001 (Qabs (a - b)).

(** The truthiness test [if (startTime)]: null and 0 are falsy. *)
Definition truthy (t : option Q) : option Q :=
  match t with
  | Some v => if Qeq_bool v 0 then None else Some v
  | None => None
  end.

(** App.tsx, [handleMouseMove]: the pointer lands in [mousePos]. *)
Definition handleMouseMove (p : Q * Q) (st : Store) : Store :=
  set_mousePos p st.

(** App.tsx, the HUD's [onSetWalking], called by the HUD's walk-zone check
    with whether the pointer is over the zone. *)
Definition onSetWalking (walking : bool) (st : Store) : Store :=
  let prev := playerState st in
  set_playerState
    (PlayerState.mk (PlayerState.position prev) (PlayerState.rotation prev)
       walking) st.

(** Between two frames the pointer event lands in [mousePos], the HUD sets
    the walk intent, React renders and the effects bring the refs up to
    date. *)
Definition between (e : FrameInput) (st : Store) : Store :=
  commit (onSetWalking (overWalkZone e) (handleMouseMove (pointer e) st)).

Section Loop.

(** [Math.sin] and [Math.cos]. *)
Variables Math_sin Math_cos : Q -> Q.

(** Lines 367-423: next position and rotation. *)
Definition locomotion (e : FrameInput) (st : Store) : Vector3.t * Q :=
  let pState := playerStateRef st in
  let mPos := mousePosRef st in
  let blocks := localBlocksRef st in
  let pos := PlayerState.position pState in
  let nextRot := turn (innerWidth e) (fst mPos) (PlayerState.rotation pState) in
  let isMoving := PlayerState.isWalking pState in
  let nx := if isMoving then Vector3.x pos + Math_sin nextRot * speed
            else Vector3.x pos in
  let nz := if isMoving then Vector3.z pos + Math_cos nextRot * speed
            else Vector3.z pos in
  let targetY := targetHeight nx nz blocks in
  let ny := verticalStep (Vector3.y pos) targetY in
  (Vector3.mk nx ny nz, nextRot).

(** Lines 463-487: the dwell machine.  The ray caster is consulted only
    while the instanced mesh exists. *)
Definition gaze (e : FrameInput) (st : Store) : Store * list Event :=
  let blocks := localBlocksRef st in
  let currentDwell := dwellTimeRef st in
  let hits := match blocks with [] => [] | _ => intersects e end in
  match hits with
  | hit :: _ =>
    match Intersection.instanceId hit with
    | Some instanceId =>
      if (instanceId <? length blocks)%nat then
        let i0 := interactionRef st in
        let i1 :=
          if bool_decide (Interaction.targetId i0 = Some instanceId) then i0
          else Interaction.mk (Some instanceId) (Some (nowAcquire e))
                 (Intersection.face_normal hit) in
        let st1 := set_interactionRef i1 st in
        match truthy (Interaction.startTime i1) with
        | Some t0 =>
          let elapsed := nowElapsed e - t0 in
          let progress := Qmin (elapsed / currentDwell) 1 in
          if Qle_bool 1 progress then
            let st2 := performAction instanceId hit (dateNow e) st1 in
            let i2 := interactionRef st2 in
            (set_interactionRef
               (Interaction.mk (Interaction.targetId i2) (Some (nowRestart e))
                  (Interaction.faceNormal i2)) st2,
             [HoverChange true progress; PerformAction instanceId;
              HoverChange false 0])
          else (st1, [HoverChange true progress])
        | None => (st1, [])
        end
      else (st, [])
    | None => (st, [])
    end
  | [] =>
    let i0 := interactionRef st in
    (set_interactionRef
       (Interaction.mk None None (Interaction.faceNormal i0)) st,
     [HoverChange false 0])
  end.

(** Lines 367-440: the avatar's scene node follows the next position
    (with the walking bob), and the player state is written back when any
    component moved by more than 0.001. *)
Definition advance (e : FrameInput) (st : Store) : Store :=
  let pState := playerStateRef st in
  let '(nextPos, nextRot) := locomotion e st in
  let isMoving := PlayerState.isWalking pState in
  let walkCycle' := if isMoving then walkCycle st + 0.1 else 0 in
  let bobOffset :=
    if isMoving then Qabs (Math_sin (walkCycle' * 2)) * 0.05 else 0 in
  let st1 :=
    set_avatar walkCycle'
      (Vector3.mk (Vector3.x nextPos) (Vector3.y nextPos + bobOffset)
         (Vector3.z nextPos), nextRot) st in
  let pos := PlayerState.position pState in
  if differs nextRot (PlayerState.rotation pState)
     || differs (Vector3.x nextPos) (Vector3.x pos)
     || differs (Vector3.z nextPos) (Vector3.z pos)
     || differs (Vector3.y nextPos) (Vector3.y pos)
  then
    set_playerState
      (PlayerState.mk nextPos nextRot
         (PlayerState.isWalking (playerState st1))) st1
  else st1.

Definition animate (e : FrameInput) (st : Store) : Store * list Event :=
  gaze e (advance e st).

(** One turn of the loop: what happens between two frames, then the
    frame. *)
Definition tick (e : FrameInput) (st : Store) : Store * list Event :=
  animate e (between e st).

(** A run of the loop: the events of every frame, and the last store. *)
Fixpoint run (es : list FrameInput) (st : Store) : list (list Event) * Store :=
  match es with
  | [] => ([], st)
  | e :: es' =>
    let '(st', evs) := tick e st in
    let '(tr, stn) := run es' st' in
    (evs :: tr, stn)
  end.

(** *** Vocabulary for statements about runs *)

(** The frame's ray hits block [id] of the current block list first. *)
Definition resolved (id : nat) (e : FrameInput) (st : Store) : Prop :=
  head (intersects e) ≫= Intersection.instanceId = Some id
  /\ (id < length (localBlocks st))%nat.

(** The clock is positive, not before [lo], and does not run backwards
    inside the frame. *)
Definition clockOk (lo : Q) (e : FrameInput) : Prop :=
  0 < nowAcquire e /\ lo <= nowAcquire e
  /\ nowAcquire e <= nowElapsed e /\ nowElapsed e <= nowRestart e.

(** Every frame of the run resolves the same target [id], on a clock
    that starts no earlier than [lo]. *)
Fixpoint steady (id : nat) (lo : Q) (es : list FrameInput) (st : Store) : Prop :=
  match es with
  | [] => True
  | e :: es' =>
    resolved id e st /\ clockOk lo e
    /\ steady id (nowRestart e) es' (fst (tick e st))
  end.

(** The next position's height in the frame that follows [st], and the
    target height that frame steers to. *)
Definition frameY (e : FrameInput) (st : Store) : Q :=
  Vector3.y (fst (locomotion e (between e st))).

Definition frameTarget (e : FrameInput) (st : Store) : Q :=
  let st0 := between e st in
  let p := fst (locomotion e st0) in
  targetHeight (Vector3.x p) (Vector3.z p) (localBlocksRef st0).

(** Every frame of the run steers to the same height [T]. *)
Fixpoint level (T : Q) (es : list FrameInput) (st : Store) : Prop :=
  match es with
  | [] => True
  | e :: es' => frameTarget e st == T /\ level T es' (fst (tick e st))
  end.

End Loop.

(** ** Vocabulary for the statements *)

(** The count an inventory holds for a block type ([inv[type] || 0]). *)
Definition inventoryCount (inv : Inventory) (t : BlockType) : Z :=
  or0 (inv !! BlockType_key t).

(** The heights of the solid blocks in the column of the rounded query. *)
Definition columnSolids (x z : Q) (blocks : list BlockData.t) : list Z :=
  map BlockData.y
    (List.filter
       (fun b : BlockData.t =>
          ((BlockData.x b =? Math_round x) && (BlockData.z b =? Math_round z))%Z
          && solid (BlockData.type b))
       blocks).

(** The terrain height as the specification words it: the sentinel over a
    column without solid block, the greatest height otherwise. *)
Definition heightAt_spec (x z : Q) (blocks : list BlockData.t) : Z :=
  match columnSolids x z blocks with
  | [] => (-10)%Z
  | y :: ys => fold_left Z.max ys y
  end.

(** The number of [performAction] calls among a frame's events. *)
Definition fires (evs : list Event) : nat :=
  length (List.filter
            (fun ev => match ev with PerformAction _ => true | _ => false end)
            evs).

Definition totalFires (tr : list (list Event)) : nat :=
  list_sum (map fires tr).

(** The dwell progress a frame reports: the argument of its first
    [onHoverChange(true, progress)]. *)
Definition reported (evs : list Event) : option Q :=
  match evs with
  | HoverChange true p :: _ => Some p
  | _ => None
  end.

(** What the cursor shows once the frame is over: the argument of the
    frame's last [onHoverChange]. *)
Definition shown (evs : list Event) : option Q :=
  match last evs with
  | Some (HoverChange _ p) => Some p
  | _ => None
  end.

(** The time the dwell timer counts from in a frame that resolves [id]:
    the stored start when [id] is already the target, this frame's first
    clock reading otherwise. *)
Definition timerStart (id : nat) (e : FrameInput) (st : Store) : Q :=
  if bool_decide (Interaction.targetId (interactionRef st) = Some id)
  then default 0 (Interaction.startTime (interactionRef st))
  else nowAcquire e.

(** The face normal of the frame's nearest hit, and the face normal the
    dwell target holds after a frame that resolves [id]. *)
Definition hitNormal (e : FrameInput) : option Vector3.t :=
  head (intersects e) ≫= Intersection.face_normal.

Definition keptNormal (id : nat) (e : FrameInput) (st : Store) : option Vector3.t :=
  if bool_decide (Interaction.targetId (interactionRef st) = Some id)
  then Interaction.faceNormal (interactionRef st)
  else hitNormal e.

(** A stored target comes with a start time that is a positive clock
    reading not after [lo]. *)
Definition timerOk (lo : Q) (st : Store) : Prop :=
  match Interaction.targetId (interactionRef st),
        Interaction.startTime (interactionRef st) with
  | Some _, Some t0 => 0 < t0 /\ t0 <= lo
  | Some _, None => False
  | None, _ => True
  end.

(** The last clock reading of a run that starts at [lo]. *)
Definition endTime (lo : Q) (es : list FrameInput) : Q :=
  match last es with
  | Some e => nowRestart e
  | None => lo
  end.

(** The avatar's height, as the player state holds it. *)
Definition heightOf (st : Store) : Q :=
  Vector3.y (PlayerState.position (playerState st)).

(** The magnitude of one frame's rotation change. *)
Definition turnRate (screenW mx : Q) : Q := Qabs (turn screenW mx 0 - 0).

(** The store with other configured speeds. *)
Definition with_speeds (ms ts : Q) (st : Store) : Store :=
  set_settings
    (GameSettings.mk (GameSettings.dwellTime (settings st))
       (GameSettings.cursorSize (settings st))
       (GameSettings.highContrast (settings st)) ms ts) st.

(** The locomotion update as the specification words it: the rotation
    change scaled by the configured turn speed. *)
Definition turn_spec (turnSpeed screenW mx rot : Q) : Q :=
  let zoneSize := screenW * 0.2 in
  if Qltb mx zoneSize then
    rot + turnSpeed * (0.5 + (1 - (mx / zoneSize)) * 0.5)
  else if Qltb (screenW - zoneSize) mx then
    rot - turnSpeed * (0.5 + ((mx - (screenW - zoneSize)) / zoneSize) * 0.5)
  else rot.

(** ** Concrete scenes *)

Definition idle : Interaction.t := Interaction.mk None None None.

(** A scene in which every ref agrees with its state cell. *)
Definition scene (m : GameMode) (sel : BlockType) (inv : Inventory)
    (blocks : list BlockData.t) (p : PlayerState.t) (i : Interaction.t) : Store :=
  mkStore INITIAL_SETTINGS m sel inv (0, 0) p blocks p (0, 0) blocks m inv
    sel (GameSettings.dwellTime INITIAL_SETTINGS) i 0
    (PlayerState.position p, PlayerState.rotation p).

Definition fewBlocks : list BlockData.t :=
  [ BlockData.mk "fb-bedrock-2-2" BEDROCK 2 0 2;
    BlockData.mk "fb-grass-2-2" GRASS 2 1 2;
    BlockData.mk "fb-grass-5-5" GRASS 5 1 5 ].

Definition noHit : Intersection.t := Intersection.mk None None.

Definition up : Vector3.t := Vector3.mk 0 1 0.
Definition east : Vector3.t := Vector3.mk 1 0 0.

(** A frame on a screen 1000 wide with the pointer in the central band,
    whose ray hits block [id] on the face with normal [n], and whose three
    clock readings all are [t]. *)
Definition frameAt (id : nat) (n : Vector3.t) (t : Q) : FrameInput :=
  mkFrame (500, 300) false 1000 [Intersection.mk (Some id) (Some n)] t t t 0.

(** The same screen with the pointer at horizontal position [mx], outside
    the walk zone, and no block under it. *)
Definition frameAway (mx t : Q) : FrameInput :=
  mkFrame (mx, 300) false 1000 [] t t t 0.

(** Stand-ins for [Math.sin] and [Math.cos] where a statement is
    evaluated: the Taylor polynomials of degree three and two. *)
Definition sinT (a : Q) : Q := a - a * a * a / 6.
Definition cosT (a : Q) : Q := 1 - a * a / 2.

(** The scene the game starts from: the loading chunk, the initial player,
    MINE mode, WOOD selected. *)
Definition startScene : Store :=
  scene MINE WOOD INITIAL_INVENTORY LOADING_CHUNK_blocks INITIAL_PLAYER idle.

(** A small scene, and a gaze that rests on its block 1 for a second and a
    half, entering by the top face and moving on to the east face. *)
Definition smallScene : Store :=
  scene MINE WOOD INITIAL_INVENTORY fewBlocks INITIAL_PLAYER idle.

Definition gazeRun : list FrameInput :=
  [frameAt 1 up 100; frameAt 1 east 600; frameAt 1 east 1100;
   frameAt 1 east 1600].

(** Ten frames, sixteen milliseconds apart, with the pointer at rest in
    the central band and no block under it. *)
Definition idleRun : list FrameInput :=
  map (fun k : nat => frameAway 500 (inject_Z (Z.of_nat k) * 16)) (seq 1 10).

(** A frame with the pointer in the walk zone at the top of the screen,
    and no block under it. *)
Definition frameWalk (t : Q) : FrameInput :=
  mkFrame (500, 20) true 1000 [] t t t 0.

(** A frame that hits block [id] while the clock moves on between the
    first and the second reading. *)
Definition frameLate (id : nat) (n : Vector3.t) (t1 t2 : Q) : FrameInput :=
  mkFrame (500, 300) false 1000 [Intersection.mk (Some id) (Some n)] t1 t2 t2 0.

(** The starting scene with the avatar half a thousandth above its
    target height. *)
Definition nearScene : Store :=
  scene MINE WOOD INITIAL_INVENTORY LOADING_CHUNK_blocks
    (PlayerState.mk (Vector3.mk 16 2.0005 16) 0 false) idle.

(** A single stone block twenty below the origin. *)
Definition deepBlocks : list BlockData.t :=
  [BlockData.mk "placed-1" STONE 0 (-20) 0].

(** * The rest of the program

    What surrounds the interaction core: the world provider, the block
    of [animate] that moves the camera and aims the ray, the gaze button
    and the HUD, the cursor ring, and App's handlers. *)

(** ** services/geminiService.ts *)

Module Chunk3D.
Record t : Type := mk {
  id : string;
  biomeName : string;
  description : string;
  blocks : list BlockData.t;
  size : Z
}.
End Chunk3D.

(** The value the returned promise resolves to.  The coordinates are
    integers; they are the code's numbers as long as the chunk indices
    keep them exactly representable ([exactChunk] below). *)
Definition generateChunkData (chunkX chunkZ : Z) : Chunk3D.t :=
  let size := 32%Z in
  let blocks :=
    flat_map (fun x : nat =>
      flat_map (fun z : nat =>
        let globalX := (Z.of_nat x + chunkX * size)%Z in
        let globalZ := (Z.of_nat z + chunkZ * size)%Z in
        [ BlockData.mk
            ("fb-bedrock-" +:+ pretty globalX +:+ "-" +:+ pretty globalZ)
            BEDROCK globalX 0 globalZ;
          BlockData.mk
            ("fb-grass-" +:+ pretty globalX +:+ "-" +:+ pretty globalZ)
            GRASS globalX 1 globalZ ])
        (seq 0 32))
      (seq 0 32) in
  Chunk3D.mk (pretty chunkX +:+ "," +:+ pretty chunkZ) "Fast Plains"
    "Optimized for speed." blocks size.

(** GameScene.tsx, lines 150-154: a chunk handed down by App replaces the
    block list. *)
Definition loadChunk (chunk : option Chunk3D.t) (st : Store) : Store :=
  match chunk with
  | Some c => set_localBlocks (Chunk3D.blocks c) st
  | None => st
  end.

(** ** GameScene.tsx: camera and ray (lines 448-457) *)

(** One frame of easing towards the pose [ideal]: every coordinate moves
    a tenth of the way. *)
Definition easeCamera (ideal cam : Vector3.t) : Vector3.t :=
  Vector3.mk (Vector3.x cam + (Vector3.x ideal - Vector3.x cam) * 0.1)
    (Vector3.y cam + (Vector3.y ideal - Vector3.y cam) * 0.1)
    (Vector3.z cam + (Vector3.z ideal - Vector3.z cam) * 0.1).

(** Pointer pixels to normalized device coordinates. *)
Definition toNDC (innerWidth innerHeight : Q) (mPos : Q * Q) : Q * Q :=
  ((fst mPos / innerWidth) * 2 - 1, - (snd mPos / innerHeight) * 2 + 1).

(** ** components/UI.tsx: GazeButton *)

Module DOMRect.
Record t : Type := mk { left : Q; right : Q; top : Q; bottom : Q }.
End DOMRect.

Definition isOver (rect : DOMRect.t) (mousePos : Q * Q) : bool :=
  Qle_bool (DOMRect.left rect) (fst mousePos)
  && Qle_bool (fst mousePos) (DOMRect.right rect)
  && Qle_bool (DOMRect.top rect) (snd mousePos)
  && Qle_bool (snd mousePos) (DOMRect.bottom rect).

(** The button's [startHoverRef] and [progress]. *)
Module Button.
Record t : Type := mk { startHover : option Q; progress : Q }.
End Button.

(** What one run of the button's effect reads: its props, the element's
    rectangle ([None] while [ref.current] is null) and the two readings of
    [performance.now()]. *)
Record ButtonInput : Type := mkButtonInput {
  btnDisabled : bool;
  btnRect : option DOMRect.t;
  btnMousePos : Q * Q;
  btnDwellTime : Q;
  btnNowStart : Q;
  btnNowElapsed : Q
}.

(** One run of the effect with its [checkHover]; the boolean tells
    whether [onClick] was called. *)
Definition checkHover (i : ButtonInput) (b : Button.t) : Button.t * bool :=
  if btnDisabled i then (Button.mk None 0, false)
  else
    match btnRect i with
    | None => (b, false)
    | Some rect =>
      if isOver rect (btnMousePos i) then
        let start :=
          match Button.startHover b with
          | None => btnNowStart i
          | Some t => t
          end in
        let elapsed := btnNowElapsed i - start in
        let p := Qmin (elapsed / btnDwellTime i) 1 in
        if Qle_bool 1 p then (Button.mk None 0, true)
        else (Button.mk (Some start) p, false)
      else (Button.mk None 0, false)
    end.

(** The effect run after run; the number counts the clicks. *)
Fixpoint checkHovers (ins : list ButtonInput) (b : Button.t) : Button.t * nat :=
  match ins with
  | [] => (b, 0%nat)
  | i :: ins' =>
    let '(b', c) := checkHover i b in
    let '(bn, n) := checkHovers ins' b' in
    (bn, ((if c then 1 else 0) + n)%nat)
  end.

(** ** components/UI.tsx: HUD *)

(** The hotbar: the inventory's types with a positive count, or six basic
    types when there is none.  The order of [Object.entries] is not
    modelled: statements about the hotbar speak of membership only. *)
Definition hotbarItems (inv : Inventory) : list string :=
  (filter (fun kc : string * Z => (0 <? kc.2)%Z = true) (map_to_list inv)).*1.

Definition displayItems (inv : Inventory) : list string :=
  let items := hotbarItems inv in
  if (0 <? length items)%nat then items
  else map BlockType_key [GRASS; DIRT; STONE; WOOD; PLANK; GLASS].

(** The HUD's turn arrows: shown while the pointer is within 15% of the
    width from an edge. *)
Definition hudZoneW (screenW : Q) : Q := screenW * 0.15.

Definition leftArrowShown (screenW mx : Q) : bool := Qltb mx (hudZoneW screenW).

Definition rightArrowShown (screenW mx : Q) : bool :=
  Qltb (screenW - hudZoneW screenW) mx.

(** ** components/GazeCursor.tsx *)

(** The progress ring's dash offset, for a given value of [Math.PI]. *)
Definition ringCircumference (PI size : Q) : Q :=
  let radius := size / 2 in
  let stroke := 4 in
  let normalizedRadius := radius - stroke * 2 in
  normalizedRadius * 2 * PI.

Definition strokeDashoffset (PI size progress : Q) : Q :=
  let circumference := ringCircumference PI size in
  circumference - progress * circumference.

(** ** App.tsx: handlers *)

(** The menu's speed button. *)
Definition toggleDwellTime (s : GameSettings.t) : GameSettings.t :=
  GameSettings.mk
    (if Qeq_bool (GameSettings.dwellTime s) 1000 then 500 else 1000)
    (GameSettings.cursorSize s) (GameSettings.highContrast s)
    (GameSettings.moveSpeed s) (GameSettings.turnSpeed s).

(** [onHoverChange] as App passes it: the pair of [isHoveringBlock] and
    [cursorProgress], after the events of a frame. *)
Definition hoverAfter (evs : list Event) (h : bool * Q) : bool * Q :=
  fold_left
    (fun h ev =>
       match ev with HoverChange b p => (b, p) | PerformAction _ => h end)
    evs h.

(** The cursor's [isDwelling] prop. *)
Definition isDwelling (h : bool * Q) : bool := fst h || Qltb 0 (snd h).

(** The pair App holds after the frames of a run, each frame's calls of
    [onHoverChange] applied in order. *)
Definition cursorAfter (tr : list (list Event)) (h : bool * Q) : bool * Q :=
  fold_left (fun h evs => hoverAfter evs h) tr h.

(** ** Vocabulary for the further statements *)

(** A block's cell. *)
Definition cellOf (b : BlockData.t) : Z * Z * Z :=
  (BlockData.x b, BlockData.y b, BlockData.z b).

(** Every count of the inventory is at least zero. *)
Definition nonNegative (inv : Inventory) : Prop :=
  forall (k : string) (c : Z), inv !! k = Some c -> (0 <= c)%Z.

(** The dwell target's index and start time are both set or both null. *)
Definition paired (st : Store) : Prop :=
  Interaction.targetId (interactionRef st) = None
  <-> Interaction.startTime (interactionRef st) = None.

(** Every frame of the run that hits a block of [blocks] hits one of type
    BEDROCK. *)
Definition onlyBedrock (blocks : list BlockData.t) (es : list FrameInput) : Prop :=
  Forall
    (fun e : FrameInput =>
       forall (i : nat) (b : BlockData.t),
         head (intersects e) ≫= Intersection.instanceId = Some i ->
         blocks !! i = Some b -> BlockData.type b = BEDROCK)
    es.

(** The clock readings of a run of button checks are positive and never
    run backwards, starting from [lo]. *)
Fixpoint buttonClock (lo : Q) (ins : list ButtonInput) : Prop :=
  match ins with
  | [] => True
  | i :: ins' =>
    lo <= btnNowStart i /\ btnNowStart i <= btnNowElapsed i
    /\ buttonClock (btnNowElapsed i) ins'
  end.

(** The last clock reading of a run of button checks that starts at
    [lo]. *)
Definition buttonEnd (lo : Q) (ins : list ButtonInput) : Q :=
  match last ins with
  | Some i => btnNowElapsed i
  | None => lo
  end.

(** The time a button's timer counts from, [lo] when it is not running. *)
Definition buttonSince (lo : Q) (b : Button.t) : Q :=
  default lo (Button.startHover b).

(** The cursor's progress is below 1, and 0 while nothing is hovered. *)
Definition cursorOk (h : bool * Q) : Prop :=
  snd h < 1 /\ (fst h = false -> snd h = 0).

(** The six types the hotbar falls back to. *)
Definition basicItems : list string :=
  map BlockType_key [GRASS; DIRT; STONE; WOOD; PLANK; GLASS].

(** [n] presses of the menu's speed button. *)
Definition toggleDwellTimeN (n : nat) (s : GameSettings.t) : GameSettings.t :=
  Nat.iter n toggleDwellTime s.

(** [b] lies between [a] and [c], whichever of the two is the larger. *)
Definition liesBetween (a b c : Q) : Prop :=
  (a <= b /\ b <= c) \/ (c <= b /\ b <= a).

(** The chunk indices for which [x + chunkX * size] is computed exactly
    by the code's double arithmetic: all block coordinates stay below
    2^53 in magnitude. *)
Definition exactChunk (c : Z) : Prop := (- 2 ^ 47 <= c <= 2 ^ 47)%Z.

(** [n] frames of camera easing towards a fixed pose. *)
Definition easeCameraN (ideal : Vector3.t) (n : nat) (cam : Vector3.t) : Vector3.t :=
  Nat.iter n (easeCamera ideal) cam.

(** A button over which the pointer rests, and a check of it at time
    [t]. *)
Definition someRect : DOMRect.t := DOMRect.mk 100 200 10 60.

Definition checkAt (t : Q) : ButtonInput :=
  mkButtonInput false (Some someRect) (150, 30) 1000 t t.

(** * Facts *)

(** ** Rationals *)

Lemma Qltb_lt (a b : Q) : Qltb a b = true <-> a < b.
Proof.
  unfold Qltb. rewrite negb_true_iff. split.
  - intros H. apply Qnot_le_lt. intros Hle.
    apply Qle_bool_iff in Hle. congruence.
  - intros H. destruct (Qle_bool b a) eqn:E; [|reflexivity].
    apply Qle_bool_iff in E. exfalso. exact (Qlt_not_le _ _ H E).
Qed.

Lemma Qltb_ge (a b : Q) : Qltb a b = false <-> b <= a.
Proof.
  unfold Qltb. rewrite negb_false_iff. apply Qle_bool_iff.
Qed.

Lemma Math_round_shift (n : Z) (q : Q) :
  Math_round (inject_Z n + q) = (n + Math_round q)%Z.
Proof.
  unfold Math_round.
  assert (Hlo : inject_Z (n + Qfloor (q + (1 # 2))) <= inject_Z n + q + (1 # 2)).
  { rewrite inject_Z_plus. pose proof (Qfloor_le (q + (1 # 2))). lra. }
  assert (Hhi : inject_Z n + q + (1 # 2) < inject_Z (n + Qfloor (q + (1 # 2)) + 1)).
  { rewrite !inject_Z_plus. pose proof (Qlt_floor (q + (1 # 2))) as H.
    rewrite inject_Z_plus in H. lra. }
  pose proof (Qfloor_le (inject_Z n + q + (1 # 2))) as Flo.
  pose proof (Qlt_floor (inject_Z n + q + (1 # 2))) as Fhi.
  assert (A : inject_Z (Qfloor (inject_Z n + q + (1 # 2)))
              < inject_Z (n + Qfloor (q + (1 # 2)) + 1)) by lra.
  assert (B : inject_Z (n + Qfloor (q + (1 # 2)))
              < inject_Z (Qfloor (inject_Z n + q + (1 # 2)) + 1)) by lra.
  rewrite <- Zlt_Qlt in A, B. lia.
Qed.

(** ** The terrain query *)

Lemma fold_max_ge_init (l : list Z) (a : Z) : (a <= fold_left Z.max l a)%Z.
Proof.
  revert a. induction l as [|y l IH]; intros a; simpl; [lia|].
  specialize (IH (Z.max a y)). lia.
Qed.

Lemma fold_max_upper (l : list Z) (a : Z) :
  Forall (fun y => (y <= fold_left Z.max l a)%Z) l.
Proof.
  revert a. induction l as [|y l IH]; intros a; simpl; constructor.
  - pose proof (fold_max_ge_init l (Z.max a y)). lia.
  - apply IH.
Qed.

Lemma fold_max_attained (l : list Z) (a : Z) :
  fold_left Z.max l a = a \/ In (fold_left Z.max l a) l.
Proof.
  revert a. induction l as [|y l IH]; intros a; simpl; [now left|].
  destruct (IH (Z.max a y)) as [H|H]; [|now right; right].
  rewrite H. destruct (Z.max_spec a y) as [[_ E]|[_ E]]; rewrite E; auto.
Qed.

Lemma fold_max_shift (l : list Z) (a b : Z) :
  fold_left Z.max l (Z.max a b) = Z.max a (fold_left Z.max l b).
Proof.
  revert a b. induction l as [|y l IH]; intros a b; simpl; [reflexivity|].
  rewrite <- Z.max_assoc. apply IH.
Qed.

Lemma getTerrainHeightAt_fold (x z : Q) (blocks : list BlockData.t) :
  getTerrainHeightAt x z blocks
  = fold_left Z.max (columnSolids x z blocks) (-10)%Z.
Proof.
  unfold getTerrainHeightAt, columnSolids.
  generalize (-10)%Z as acc.
  induction blocks as [|b blocks IH]; intros acc; simpl; [reflexivity|].
  destruct ((BlockData.x b =? Math_round x)%Z && (BlockData.z b =? Math_round z)%Z);
    simpl; [|apply IH].
  destruct (solid (BlockData.type b)); simpl; [|apply IH].
  rewrite IH. f_equal.
  destruct (Z.gtb_spec (BlockData.y b) acc); lia.
Qed.

Lemma getTerrainHeightAt_floor (x z : Q) (blocks : list BlockData.t) :
  getTerrainHeightAt x z blocks = Z.max (-10) (heightAt_spec x z blocks).
Proof.
  rewrite getTerrainHeightAt_fold. unfold heightAt_spec.
  destruct (columnSolids x z blocks) as [|y ys]; simpl; [reflexivity|].
  apply fold_max_shift.
Qed.




(** ** The action executor *)

Lemma or0_succ (v : option Z) : or0 (Some (or0 v + 1)%Z) = (or0 v + 1)%Z.
Proof.
  simpl. destruct (Z.eqb_spec (or0 v + 1) 0) as [E|E]; [lia|reflexivity].
Qed.

Lemma delete_splits {A : Type} (l : list A) (i : nat) (a : A) :
  l !! i = Some a ->
  l = take i (delete i l) ++ a :: drop i (delete i l).
Proof.
  revert i. induction l as [|h l IH]; intros [|i] H; simpl in *; try discriminate.
  - injection H as ->. rewrite drop_0. reflexivity.
  - f_equal. apply IH, H.
Qed.

(** C1.  Mining a resolved block in MINE mode, the refs being in sync: a
    block of a type other than BEDROCK adds exactly 1 to the inventory
    count of its type, leaves every other entry alone, and is taken out
    of the block list, which gets one shorter; a BEDROCK block leaves the
    whole store as it was. *)
Theorem performAction_mine (index : nat) (hit : Intersection.t)
    (dateNow : Z) (st : Store) (b : BlockData.t) :
  synced st -> mode st = MINE -> localBlocks st !! index = Some b ->
  let st' := performAction index hit dateNow st in
  (BlockData.type b <> BEDROCK ->
     inventoryCount (inventory st') (BlockData.type b)
       = (inventoryCount (inventory st) (BlockData.type b) + 1)%Z
     /\ (forall k : string, k <> BlockType_key (BlockData.type b) ->
         inventory st' !! k = inventory st !! k)
     /\ localBlocks st' = delete index (localBlocks st)
     /\ localBlocks st
        = take index (localBlocks st') ++ b :: drop index (localBlocks st')
     /\ S (length (localBlocks st')) = length (localBlocks st))
  /\ (BlockData.type b = BEDROCK -> st' = st).
Proof.
  intros (Hb & Hi & Hm & _) Hmode Hlook. cbv zeta.
  unfold performAction. rewrite Hb, Hi, Hm, Hmode, Hlook.
  split.
  - intros Hne. rewrite bool_decide_eq_false_2 by exact Hne. simpl.
    unfold inventoryCount. repeat split.
    + rewrite lookup_insert_eq. apply or0_succ.
    + intros k Hk. rewrite lookup_insert_ne by congruence. reflexivity.
    + apply delete_splits, Hlook.
    + rewrite length_delete by (rewrite Hlook; eauto).
      apply lookup_lt_Some in Hlook. lia.
  - intros He. rewrite bool_decide_eq_true_2 by exact He. reflexivity.
Qed.

Lemma performAction_mine_witness :
  inventoryCount
    (inventory (performAction 1 noHit 0 (scene MINE WOOD INITIAL_INVENTORY fewBlocks INITIAL_PLAYER idle)))
    GRASS = 1%Z
  /\ length (localBlocks (performAction 1 noHit 0 (scene MINE WOOD INITIAL_INVENTORY fewBlocks INITIAL_PLAYER idle)))
     = 2%nat.
Proof.
  pose proof (performAction_mine 1 noHit 0
                (scene MINE WOOD INITIAL_INVENTORY fewBlocks INITIAL_PLAYER idle)
                (BlockData.mk "fb-grass-2-2" GRASS 2 1 2)
                (conj eq_refl (conj eq_refl (conj eq_refl eq_refl)))
                eq_refl eq_refl) as [H _].
  destruct (H ltac:(discriminate)) as (Hc & _ & _ & _ & Hl).
  split.
  - exact Hc.
  - exact (eq_add_S _ _ Hl).
Defined.

(** C2.  Building against a resolved block at (x,y,z) in BUILD mode, the
    refs being in sync: with a face normal (nx,ny,nz) stored in the dwell
    target, a block of the selected type is appended at
    (x+round(nx), y+round(ny), z+round(nz)), the block list gets one
    longer and the inventory stays as it was; without a stored face normal
    the whole store stays as it was. *)
Theorem performAction_build (index : nat) (hit : Intersection.t)
    (dateNow : Z) (st : Store) (b : BlockData.t) :
  synced st -> mode st = BUILD -> localBlocks st !! index = Some b ->
  let st' := performAction index hit dateNow st in
  (forall normal : Vector3.t,
     Interaction.faceNormal (interactionRef st) = Some normal ->
     localBlocks st'
       = localBlocks st
         ++ [BlockData.mk ("placed-" +:+ pretty dateNow) (selectedBlockType st)
               (BlockData.x b + Math_round (Vector3.x normal))
               (BlockData.y b + Math_round (Vector3.y normal))
               (BlockData.z b + Math_round (Vector3.z normal))]
     /\ length (localBlocks st') = S (length (localBlocks st))
     /\ inventory st' = inventory st)
  /\ (Interaction.faceNormal (interactionRef st) = None -> st' = st).
Proof.
  intros (Hb & Hi & Hm & Hs) Hmode Hlook. cbv zeta.
  unfold performAction. rewrite Hb, Hi, Hm, Hs, Hmode, Hlook.
  split.
  - intros normal ->. simpl. rewrite !Math_round_shift.
    repeat split. rewrite length_app. simpl. lia.
  - intros ->. reflexivity.
Qed.

Lemma performAction_build_witness :
  localBlocks
    (performAction 2 noHit 7
       (scene BUILD STONE INITIAL_INVENTORY fewBlocks INITIAL_PLAYER
          (Interaction.mk (Some 2%nat) (Some 5) (Some up))))
  = fewBlocks ++ [BlockData.mk "placed-7" STONE 5 2 5].
Proof.
  pose proof (performAction_build 2 noHit 7
                (scene BUILD STONE INITIAL_INVENTORY fewBlocks INITIAL_PLAYER
                   (Interaction.mk (Some 2%nat) (Some 5) (Some up)))
                (BlockData.mk "fb-grass-5-5" GRASS 5 1 5)
                (conj eq_refl (conj eq_refl (conj eq_refl eq_refl)))
                eq_refl eq_refl) as [H _].
  destruct (H up eq_refl) as (Hl & _ & _).
  exact Hl.
Defined.

(** C10.  An index that holds no block of the current block list makes
    the executor return the store it was given, whatever the mode; and the
    frame loop does not even call it for a hit with such an index: that
    frame leaves the block list and the inventory as they were. *)
Theorem performAction_no_block (index : nat) (hit : Intersection.t)
    (dateNow : Z) (st : Store) :
  localBlocksRef st !! index = None ->
  performAction index hit dateNow st = st
  /\ (forall (e : FrameInput) (rest : list Intersection.t),
       intersects e = hit :: rest ->
       Intersection.instanceId hit = Some index ->
       fires (snd (gaze e st)) = 0%nat
       /\ localBlocks (fst (gaze e st)) = localBlocks st
       /\ inventory (fst (gaze e st)) = inventory st).
Proof.
  intros Hnone. split.
  - unfold performAction. rewrite Hnone. reflexivity.
  - intros e rest He Hid. unfold gaze.
    apply lookup_ge_None in Hnone.
    destruct (localBlocksRef st) as [|b0 bs] eqn:Hb.
    + repeat split.
    + rewrite He, Hid.
      destruct (Nat.ltb_spec index (length (b0 :: bs))); [lia|repeat split].
Qed.

Lemma performAction_no_block_witness :
  performAction 3 noHit 0 (scene MINE WOOD INITIAL_INVENTORY fewBlocks INITIAL_PLAYER idle)
  = scene MINE WOOD INITIAL_INVENTORY fewBlocks INITIAL_PLAYER idle
  /\ performAction 3 noHit 0
       (scene BUILD WOOD INITIAL_INVENTORY fewBlocks INITIAL_PLAYER
          (Interaction.mk (Some 3%nat) (Some 5) (Some up)))
     = scene BUILD WOOD INITIAL_INVENTORY fewBlocks INITIAL_PLAYER
         (Interaction.mk (Some 3%nat) (Some 5) (Some up)).
Proof.
  split.
  - exact (proj1 (performAction_no_block 3 noHit 0
                    (scene MINE WOOD INITIAL_INVENTORY fewBlocks INITIAL_PLAYER idle)
                    eq_refl)).
  - exact (proj1 (performAction_no_block 3 noHit 0
                    (scene BUILD WOOD INITIAL_INVENTORY fewBlocks INITIAL_PLAYER
                       (Interaction.mk (Some 3%nat) (Some 5) (Some up)))
                    eq_refl)).
Defined.

(** ** Turning *)

Lemma div_mul (a b : Q) : 0 < b -> b * (a / b) == a.
Proof. intros H. apply Qmult_div_r. lra. Qed.

Lemma div_lt_mono (a a' b : Q) : 0 < b -> a < a' -> a / b < a' / b.
Proof.
  intros Hb Ha. pose proof (div_mul a b Hb). pose proof (div_mul a' b Hb).
  nra.
Qed.

Lemma div_pos (a b : Q) : 0 < b -> 0 < a -> 0 < a / b.
Proof. intros Hb Ha. pose proof (div_mul a b Hb). nra. Qed.

Lemma turn_left (W mx rot : Q) :
  mx < W * 0.2 ->
  turn W mx rot = rot + rotSpeed * (0.5 + (1 - mx / (W * 0.2)) * 0.5).
Proof.
  intros H. unfold turn. apply Qltb_lt in H. rewrite H. reflexivity.
Qed.

Lemma turn_right (W mx rot : Q) :
  0 < W -> W - W * 0.2 < mx ->
  turn W mx rot
  = rot - rotSpeed * (0.5 + ((mx - (W - W * 0.2)) / (W * 0.2)) * 0.5).
Proof.
  intros HW H. unfold turn.
  assert (Hl : Qltb mx (W * 0.2) = false) by (apply Qltb_ge; lra).
  apply Qltb_lt in H. rewrite Hl, H. reflexivity.
Qed.

Lemma turn_centre (W mx rot : Q) :
  W * 0.2 <= mx -> mx <= W - W * 0.2 -> turn W mx rot = rot.
Proof.
  intros H1 H2. unfold turn.
  apply Qltb_ge in H1, H2. rewrite H1, H2. reflexivity.
Qed.

Lemma turnRate_left (W mx : Q) :
  0 < W -> mx < W * 0.2 ->
  turnRate W mx == rotSpeed * (0.5 + ((W * 0.2 - mx) / (W * 0.2)) * 0.5).
Proof.
  intros HW H. unfold turnRate. rewrite (turn_left W mx 0 H).
  assert (Hz : 0 < W * 0.2) by lra.
  pose proof (div_mul mx (W * 0.2) Hz) as E1.
  pose proof (div_mul (W * 0.2 - mx) (W * 0.2) Hz) as E2.
  assert (Hd : mx / (W * 0.2) < 1) by nra.
  assert (E3 : (W * 0.2 - mx) / (W * 0.2) == 1 - mx / (W * 0.2)) by nra.
  rewrite E3. unfold rotSpeed in *.
  rewrite Qabs_pos; lra.
Qed.

Lemma turnRate_right (W mx : Q) :
  0 < W -> W - W * 0.2 < mx ->
  turnRate W mx == rotSpeed * (0.5 + ((mx - (W - W * 0.2)) / (W * 0.2)) * 0.5).
Proof.
  intros HW H. unfold turnRate. rewrite (turn_right W mx 0 HW H).
  assert (Hz : 0 < W * 0.2) by lra.
  assert (Hd : 0 < (mx - (W - W * 0.2)) / (W * 0.2)) by (apply div_pos; lra).
  unfold rotSpeed in *.
  rewrite Qabs_neg; lra.
Qed.

Lemma turn_rate_rot (W mx rot : Q) :
  0 < W -> Qabs (turn W mx rot - rot) == turnRate W mx.
Proof.
  intros HW. unfold turnRate.
  destruct (Qlt_le_dec mx (W * 0.2)) as [Hl|Hl].
  - rewrite !(turn_left _ _ _ Hl). apply Qabs_wd. lra.
  - destruct (Qlt_le_dec (W - W * 0.2) mx) as [Hr|Hr].
    + rewrite !(turn_right _ _ _ HW Hr). apply Qabs_wd. lra.
    + rewrite !(turn_centre _ _ _ Hl Hr). apply Qabs_wd. lra.
Qed.

(** C7.  On a screen of positive width, with turn zones of a fifth of the
    width at either edge: between the zones the rotation does not change;
    inside the left zone it grows and inside the right zone it shrinks, by
    rotSpeed * (0.5 + 0.5 * depth / zone), where depth is the distance
    from the zone's boundary towards the screen edge, so the change is
    never zero there, is affine in the depth and reaches rotSpeed at the
    screen edge; and its magnitude is strictly greater the closer the
    pointer is to the edge. *)
Theorem turn_zones (W mx rot : Q) :
  0 < W ->
  let zone := W * 0.2 in
  Qabs (turn W mx rot - rot) == turnRate W mx
  /\ (zone <= mx -> mx <= W - zone ->
      turn W mx rot = rot /\ turnRate W mx == 0)
  /\ (mx < zone ->
      turn W mx rot - rot == rotSpeed * (0.5 + ((zone - mx) / zone) * 0.5)
      /\ 0 < turn W mx rot - rot)
  /\ (W - zone < mx ->
      rot - turn W mx rot == rotSpeed * (0.5 + ((mx - (W - zone)) / zone) * 0.5)
      /\ 0 < rot - turn W mx rot)
  /\ turnRate W 0 == rotSpeed /\ turnRate W W == rotSpeed
  /\ (forall mx' : Q, mx < mx' -> mx' < zone -> turnRate W mx' < turnRate W mx)
  /\ (forall mx' : Q, W - zone < mx -> mx < mx' -> turnRate W mx < turnRate W mx').
Proof.
  intros HW. cbv zeta.
  assert (Hz : 0 < W * 0.2) by lra.
  split; [apply turn_rate_rot, HW|].
  split.
  { intros H1 H2. split; [apply turn_centre; assumption|].
    unfold turnRate. rewrite (turn_centre _ _ _ H1 H2). reflexivity. }
  split.
  { intros Hl. pose proof (turnRate_left W mx HW Hl) as E.
    rewrite <- E. pose proof (turn_rate_rot W mx rot HW) as Ea.
    rewrite (turn_left _ _ _ Hl) in *.
    pose proof (div_mul mx (W * 0.2) Hz) as E1.
    assert (Hd : mx / (W * 0.2) < 1) by nra.
    unfold rotSpeed in *.
    assert (P : 0 < rot + 0.008 * (0.5 + (1 - mx / (W * 0.2)) * 0.5) - rot) by lra.
    split; [|exact P].
    rewrite <- Ea. symmetry. apply Qabs_pos. lra. }
  split.
  { intros Hr. pose proof (turnRate_right W mx HW Hr) as E.
    rewrite <- E. pose proof (turn_rate_rot W mx rot HW) as Ea.
    rewrite (turn_right _ _ _ HW Hr) in *.
    assert (Hd : 0 < (mx - (W - W * 0.2)) / (W * 0.2)) by (apply div_pos; lra).
    unfold rotSpeed in *.
    assert (P : 0 < rot - (rot - 0.008 * (0.5 + (mx - (W - W * 0.2)) / (W * 0.2) * 0.5))) by lra.
    split; [|exact P].
    rewrite <- Ea. rewrite Qabs_neg by lra. lra. }
  split.
  { rewrite turnRate_left by lra.
    pose proof (div_mul (W * 0.2 - 0) (W * 0.2) Hz). unfold rotSpeed. nra. }
  split.
  { rewrite turnRate_right by lra.
    pose proof (div_mul (W - (W - W * 0.2)) (W * 0.2) Hz). unfold rotSpeed. nra. }
  split.
  { intros mx' H1 H2. rewrite !turnRate_left by lra.
    pose proof (div_lt_mono (W * 0.2 - mx') (W * 0.2 - mx) (W * 0.2) Hz).
    unfold rotSpeed. lra. }
  { intros mx' H1 H2. rewrite !turnRate_right by lra.
    pose proof (div_lt_mono (mx - (W - W * 0.2)) (mx' - (W - W * 0.2)) (W * 0.2) Hz).
    unfold rotSpeed. lra. }
Qed.

Lemma turn_zones_witness :
  turnRate 1000 500 == 0 /\ turnRate 1000 100 < turnRate 1000 50
  /\ turnRate 1000 900 < turnRate 1000 950.
Proof.
  pose proof (turn_zones 1000 500 0 ltac:(reflexivity)) as (_ & Hc & _).
  pose proof (turn_zones 1000 50 0 ltac:(reflexivity)) as (_ & _ & _ & _ & _ & _ & Hl & _).
  pose proof (turn_zones 1000 900 0 ltac:(reflexivity)) as (_ & _ & _ & _ & _ & _ & _ & Hr).
  split; [|split].
  - apply Hc; vm_compute; discriminate.
  - apply Hl; reflexivity.
  - apply Hr; reflexivity.
Defined.

(** ** Terrain following *)

Ltac case_Qltb :=
  repeat match goal with
  | |- context [Qltb ?a ?b] =>
      let E := fresh "E" in
      destruct (Qltb a b) eqn:E;
      [apply Qltb_lt in E | apply Qltb_ge in E]
  end.

Lemma targetHeight_max (x z : Q) (blocks : list BlockData.t) :
  targetHeight x z blocks == Qmax (groundHeight x z blocks) 1 + 1.
Proof.
  unfold targetHeight. case_Qltb.
  - rewrite Q.max_r by lra. lra.
  - rewrite Q.max_l by lra. lra.
Qed.

Lemma groundHeight_query (x z : Q) (blocks : list BlockData.t) :
  groundHeight x z blocks == inject_Z (getTerrainHeightAt x z blocks).
Proof.
  unfold groundHeight. destruct blocks; reflexivity.
Qed.

Lemma verticalStep_below (y T : Q) :
  y < T -> verticalStep y T == Qmin (y + 0.2) T.
Proof.
  intros H. unfold verticalStep. case_Qltb; try lra.
  - rewrite Q.min_r by lra. reflexivity.
  - rewrite Q.min_l by lra. reflexivity.
Qed.

Lemma verticalStep_above (y T : Q) :
  T < y -> verticalStep y T == Qmax (y - 0.1) T.
Proof.
  intros H. unfold verticalStep. case_Qltb; try lra.
  - rewrite Q.max_r by lra. reflexivity.
  - rewrite Q.max_l by lra. reflexivity.
Qed.

Lemma verticalStep_at (y T : Q) : y == T -> verticalStep y T = y.
Proof.
  intros H. unfold verticalStep. case_Qltb; try lra. reflexivity.
Qed.

Lemma verticalStep_between (y T : Q) :
  (y <= T -> y <= verticalStep y T /\ verticalStep y T <= T)
  /\ (T <= y -> T <= verticalStep y T /\ verticalStep y T <= y).
Proof.
  unfold verticalStep. split; intros H; case_Qltb; lra.
Qed.

(** One step brings the height a tenth closer to the target, or onto it. *)
Lemma verticalStep_closer (y T d : Q) :
  0.1 <= d -> T - d <= y -> y <= T + d ->
  T - (d - 0.1) <= verticalStep y T /\ verticalStep y T <= T + (d - 0.1).
Proof.
  intros Hd H1 H2. unfold verticalStep. case_Qltb; lra.
Qed.

Lemma verticalStep_near (y T : Q) :
  T - 0.1 <= y -> y <= T + 0.1 -> verticalStep y T == T.
Proof.
  intros H1 H2. unfold verticalStep. case_Qltb; lra.
Qed.

Lemma inject_nat_succ (n : nat) :
  inject_Z (Z.of_nat (S n)) == inject_Z (Z.of_nat n) + 1.
Proof.
  rewrite Nat2Z.inj_succ. unfold Z.succ. rewrite inject_Z_plus. reflexivity.
Qed.

Lemma inject_nat_nonneg (n : nat) : 0 <= inject_Z (Z.of_nat n).
Proof. change 0 with (inject_Z 0). rewrite <- Zle_Qle. lia. Qed.

(** ** The frame *)

(** The executor writes the inventory and the block list and nothing
    else. *)
Lemma performAction_shape (index : nat) (hit : Intersection.t) (dateNow : Z)
    (st : Store) :
  exists (inv' : Inventory) (bl' : list BlockData.t),
    performAction index hit dateNow st
    = set_localBlocks bl' (set_inventory inv' st).
Proof.
  assert (Hid : st = set_localBlocks (localBlocks st) (set_inventory (inventory st) st))
    by (destruct st; reflexivity).
  unfold performAction.
  destruct (localBlocksRef st !! index) as [b|]; [|eauto].
  destruct (modeRef st).
  - destruct (bool_decide (BlockData.type b = BEDROCK)); eauto.
  - destruct (Interaction.faceNormal (interactionRef st)); eauto.
Qed.

Lemma performAction_interactionRef index hit dateNow st :
  interactionRef (performAction index hit dateNow st) = interactionRef st.
Proof.
  destruct (performAction_shape index hit dateNow st) as (i & b & ->).
  reflexivity.
Qed.

(** The dwell machine writes the dwell target and what the executor
    writes. *)
Lemma gaze_shape (e : FrameInput) (st : Store) :
  exists (i' : Interaction.t) (inv' : Inventory) (bl' : list BlockData.t),
    fst (gaze e st)
    = set_interactionRef i' (set_localBlocks bl' (set_inventory inv' st)).
Proof.
  assert (Hid : forall s : Store,
             s = set_interactionRef (interactionRef s)
                   (set_localBlocks (localBlocks s) (set_inventory (inventory s) s)))
    by (intros []; reflexivity).
  unfold gaze.
  destruct (match localBlocksRef st with [] => [] | _ :: _ => intersects e end)
    as [|hit rest]; simpl; [eauto|].
  destruct (Intersection.instanceId hit) as [id|]; simpl; [|eauto].
  destruct (id <? length (localBlocksRef st))%nat; simpl; [|eauto].
  match goal with |- context [truthy ?t] => destruct (truthy t) end; simpl; [|eauto].
  match goal with |- context [Qle_bool ?a ?b] => destruct (Qle_bool a b) end;
    simpl; [|eauto].
  match goal with |- context [performAction ?i ?h ?d ?s] =>
    destruct (performAction_shape i h d s) as (inv' & bl' & ->) end.
  eauto.
Qed.

Lemma gaze_playerState e st : playerState (fst (gaze e st)) = playerState st.
Proof. destruct (gaze_shape e st) as (i & v & b & ->). reflexivity. Qed.

Lemma gaze_settings e st : settings (fst (gaze e st)) = settings st.
Proof. destruct (gaze_shape e st) as (i & v & b & ->). reflexivity. Qed.

Section FrameFacts.

Variables Math_sin Math_cos : Q -> Q.

Lemma advance_shape (e : FrameInput) (st : Store) :
  exists (ps : PlayerState.t) (w : Q) (g : Vector3.t * Q),
    advance Math_sin Math_cos e st = set_playerState ps (set_avatar w g st).
Proof.
  assert (Hid : forall w g, set_avatar w g st
                = set_playerState (playerState (set_avatar w g st)) (set_avatar w g st))
    by (intros; destruct st; reflexivity).
  unfold advance. destruct (locomotion Math_sin Math_cos e st) as [np nr].
  match goal with |- context [if ?c then _ else _] => destruct c end; eauto.
Qed.

Lemma advance_refs (e : FrameInput) (st : Store) :
  interactionRef (advance Math_sin Math_cos e st) = interactionRef st
  /\ localBlocksRef (advance Math_sin Math_cos e st) = localBlocksRef st
  /\ dwellTimeRef (advance Math_sin Math_cos e st) = dwellTimeRef st
  /\ settings (advance Math_sin Math_cos e st) = settings st
  /\ localBlocks (advance Math_sin Math_cos e st) = localBlocks st
  /\ inventory (advance Math_sin Math_cos e st) = inventory st.
Proof.
  destruct (advance_shape e st) as (ps & w & g & ->). repeat split.
Qed.

Lemma tick_unfold (e : FrameInput) (st : Store) :
  tick Math_sin Math_cos e st
  = gaze e (advance Math_sin Math_cos e (between e st)).
Proof. reflexivity. Qed.

Lemma frameY_unfold (e : FrameInput) (st : Store) :
  frameY Math_sin Math_cos e st
  = Vector3.y
      (fst (locomotion Math_sin Math_cos e (between e st))).
Proof. reflexivity. Qed.

Lemma tick_settings (e : FrameInput) (st : Store) :
  settings (fst (tick Math_sin Math_cos e st)) = settings st.
Proof.
  unfold tick, animate. rewrite gaze_settings.
  destruct (advance_refs e (between e st))
    as (_ & _ & _ & -> & _). reflexivity.
Qed.

Lemma run_cons (e : FrameInput) (es : list FrameInput) (st : Store) :
  run Math_sin Math_cos (e :: es) st
  = (snd (tick Math_sin Math_cos e st)
       :: fst (run Math_sin Math_cos es (fst (tick Math_sin Math_cos e st))),
     snd (run Math_sin Math_cos es (fst (tick Math_sin Math_cos e st)))).
Proof.
  simpl. destruct (tick Math_sin Math_cos e st) as [st' evs]. simpl.
  destruct (run Math_sin Math_cos es st'). reflexivity.
Qed.

Lemma run_settings (es : list FrameInput) (st : Store) :
  settings (snd (run Math_sin Math_cos es st)) = settings st.
Proof.
  revert st. induction es as [|e es IH]; intros st; [reflexivity|].
  rewrite run_cons. simpl. rewrite IH. apply tick_settings.
Qed.

End FrameFacts.
(** ** The dwell machine *)

Lemma progress_full (el dw : Q) :
  0 < dw -> (Qle_bool 1 (Qmin (el / dw) 1) = true <-> dw <= el).
Proof.
  intros Hdw. rewrite Qle_bool_iff.
  pose proof (div_mul el dw Hdw) as E.
  destruct (Q.min_spec (el / dw) 1) as [[H ->]|[H ->]]; split; intros; nra.
Qed.

Lemma progress_partial (el dw : Q) :
  0 < dw -> el < dw -> Qle_bool 1 (Qmin (el / dw) 1) = false.
Proof.
  intros Hdw Hel. destruct (Qle_bool 1 (Qmin (el / dw) 1)) eqn:E; [|reflexivity].
  apply progress_full in E; [lra|exact Hdw].
Qed.

Lemma truthy_pos (t : Q) : 0 < t -> truthy (Some t) = Some t.
Proof.
  intros H. simpl. destruct (Qeq_bool t 0) eqn:E; [|reflexivity].
  apply Qeq_bool_iff in E. lra.
Qed.

Lemma gaze_dwell (e : FrameInput) (st : Store) (id : nat) (lo : Q) :
  0 < dwellTimeRef st ->
  head (intersects e) ≫= Intersection.instanceId = Some id ->
  (id < length (localBlocksRef st))%nat ->
  clockOk lo e -> timerOk lo st ->
  let t0 := timerStart id e st in
  let p := Qmin ((nowElapsed e - t0) / dwellTimeRef st) 1 in
  0 < t0 /\ t0 <= nowElapsed e
  /\ (dwellTimeRef st <= nowElapsed e - t0 ->
      snd (gaze e st)
      = [HoverChange true p; PerformAction id; HoverChange false 0]
      /\ interactionRef (fst (gaze e st))
         = Interaction.mk (Some id) (Some (nowRestart e)) (keptNormal id e st))
  /\ (nowElapsed e - t0 < dwellTimeRef st ->
      snd (gaze e st) = [HoverChange true p]
      /\ interactionRef (fst (gaze e st))
         = Interaction.mk (Some id) (Some t0) (keptNormal id e st)).
Proof.
  intros Hdw Hhit Hlt (Hpos & Hlo & Hae & Her) Hok. cbv zeta.
  unfold gaze, timerStart, keptNormal, hitNormal, timerOk in *.
  destruct (intersects e) as [|hit rest]; [discriminate|]. simpl in Hhit.
  destruct (localBlocksRef st) as [|b0 bs] eqn:Hbl; [simpl in Hlt; lia|].
  rewrite Hhit. apply Nat.ltb_lt in Hlt. rewrite Hlt.
  destruct (interactionRef st) as [tid ts fn] eqn:Hi.
  cbn [Interaction.targetId Interaction.startTime Interaction.faceNormal] in *.
  case_bool_decide as Htid.
  - subst tid. destruct ts as [t0|]; [|contradiction]. destruct Hok as [H0 Hle].
    simpl Interaction.startTime. rewrite (truthy_pos t0 H0).
    change (default 0 (Some t0)) with t0.
    split; [exact H0|]. split; [lra|]. split; intros Hc.
    + apply (progress_full _ _ Hdw) in Hc. rewrite Hc. simpl.
      rewrite performAction_interactionRef. split; reflexivity.
    + rewrite (progress_partial _ _ Hdw Hc). simpl.
      split; reflexivity.
  - simpl Interaction.startTime. rewrite (truthy_pos _ Hpos).
    split; [exact Hpos|]. split; [lra|]. split; intros Hc.
    + apply (progress_full _ _ Hdw) in Hc. rewrite Hc. simpl.
      rewrite performAction_interactionRef. split; reflexivity.
    + rewrite (progress_partial _ _ Hdw Hc). simpl.
      split; reflexivity.
Qed.

Lemma endTime_cons (lo : Q) (e : FrameInput) (es : list FrameInput) :
  endTime lo (e :: es) = endTime (nowRestart e) es.
Proof.
  unfold endTime. destruct es as [|e' es]; [reflexivity|].
  rewrite last_cons. destruct (last (e' :: es)) eqn:E; [reflexivity|].
  apply last_None in E. discriminate.
Qed.

Lemma totalFires_cons (evs : list Event) (tr : list (list Event)) :
  totalFires (evs :: tr) = (fires evs + totalFires tr)%nat.
Proof. reflexivity. Qed.

Section DwellFacts.

Variables Math_sin Math_cos : Q -> Q.

Local Abbreviation tick := (tick Math_sin Math_cos).
Local Abbreviation run := (run Math_sin Math_cos).
Local Abbreviation steady := (steady Math_sin Math_cos).

Lemma tick_gaze (e : FrameInput) (st : Store) :
  exists s0 : Store,
    tick e st = gaze e s0
    /\ interactionRef s0 = interactionRef st
    /\ localBlocksRef s0 = localBlocks st
    /\ dwellTimeRef s0 = GameSettings.dwellTime (settings st)
    /\ localBlocks s0 = localBlocks st
    /\ inventory s0 = inventory st.
Proof.
  exists (advance Math_sin Math_cos e (between e st)).
  destruct (advance_refs Math_sin Math_cos e (between e st))
    as (-> & -> & -> & _ & -> & ->).
  repeat split.
Qed.

Lemma tick_dwell (e : FrameInput) (st : Store) (id : nat) (lo : Q) :
  0 < GameSettings.dwellTime (settings st) ->
  resolved id e st -> clockOk lo e -> timerOk lo st ->
  let t0 := timerStart id e st in
  let p := Qmin ((nowElapsed e - t0) / GameSettings.dwellTime (settings st)) 1 in
  0 < t0 /\ t0 <= nowElapsed e
  /\ (GameSettings.dwellTime (settings st) <= nowElapsed e - t0 ->
      snd (tick e st)
      = [HoverChange true p; PerformAction id; HoverChange false 0]
      /\ interactionRef (fst (tick e st))
         = Interaction.mk (Some id) (Some (nowRestart e)) (keptNormal id e st))
  /\ (nowElapsed e - t0 < GameSettings.dwellTime (settings st) ->
      snd (tick e st) = [HoverChange true p]
      /\ interactionRef (fst (tick e st))
         = Interaction.mk (Some id) (Some t0) (keptNormal id e st)).
Proof.
  intros Hdw [Hhit Hlt] Hck Hok.
  destruct (tick_gaze e st) as (s0 & -> & Hi & Hb & Hd & _).
  assert (Hok0 : timerOk lo s0) by (unfold timerOk; rewrite Hi; exact Hok).
  rewrite <- Hb in Hlt. rewrite <- Hd in Hdw.
  pose proof (gaze_dwell e s0 id lo Hdw Hhit Hlt Hck Hok0) as G.
  unfold timerStart, keptNormal in *. rewrite Hi, Hd in G. exact G.
Qed.

(** After a frame that resolves [id], the stored target is [id] and its
    timer started at a positive reading not after the frame's last. *)
Lemma tick_stored (e : FrameInput) (st : Store) (id : nat) (lo : Q) :
  0 < GameSettings.dwellTime (settings st) ->
  resolved id e st -> clockOk lo e -> timerOk lo st ->
  exists t : Q,
    Interaction.targetId (interactionRef (fst (tick e st))) = Some id
    /\ Interaction.startTime (interactionRef (fst (tick e st))) = Some t
    /\ 0 < t /\ t <= nowRestart e
    /\ inject_Z (Z.of_nat (fires (snd (tick e st))))
         * GameSettings.dwellTime (settings st)
       <= t - timerStart id e st.
Proof.
  intros Hdw Hres Hck Hok.
  destruct (tick_dwell e st id lo Hdw Hres Hck Hok) as (H0 & Hle & Hf & Hn).
  destruct Hck as (Hpos & Hlo & Hae & Her).
  destruct (Qlt_le_dec (nowElapsed e - timerStart id e st)
              (GameSettings.dwellTime (settings st))) as [Hc|Hc].
  - destruct (Hn Hc) as [-> ->]. exists (timerStart id e st).
    repeat split; try assumption; try lra.
    change (inject_Z (Z.of_nat (fires [HoverChange true
      (Qmin ((nowElapsed e - timerStart id e st) / GameSettings.dwellTime (settings st)) 1)])))
      with 0. lra.
  - destruct (Hf Hc) as [-> ->]. exists (nowRestart e).
    repeat split; try lra.
    change (inject_Z (Z.of_nat (fires [HoverChange true
      (Qmin ((nowElapsed e - timerStart id e st) / GameSettings.dwellTime (settings st)) 1);
      PerformAction id; HoverChange false 0])))
      with 1. lra.
Qed.

Lemma tick_timerOk (e : FrameInput) (st : Store) (id : nat) (lo : Q) :
  0 < GameSettings.dwellTime (settings st) ->
  resolved id e st -> clockOk lo e -> timerOk lo st ->
  timerOk (nowRestart e) (fst (tick e st)).
Proof.
  intros Hdw Hres Hck Hok.
  destruct (tick_stored e st id lo Hdw Hres Hck Hok) as (t & Ht & Hs & H0 & Hle & _).
  unfold timerOk. rewrite Ht, Hs. split; assumption.
Qed.

Lemma steady_run (id : nat) (pre rest : list FrameInput) :
  forall (lo : Q) (st : Store),
    0 < GameSettings.dwellTime (settings st) ->
    timerOk lo st -> steady id lo (pre ++ rest) st ->
    exists lo' : Q,
      timerOk lo' (snd (run pre st)) /\ steady id lo' rest (snd (run pre st)).
Proof.
  induction pre as [|e pre IH]; intros lo st Hdw Hok Hst.
  - exists lo. split; assumption.
  - rewrite <- app_comm_cons in Hst. destruct Hst as (Hres & Hck & Hst).
    rewrite run_cons. simpl snd.
    apply (IH (nowRestart e)).
    + rewrite tick_settings. exact Hdw.
    + apply (tick_timerOk e st id lo); assumption.
    + exact Hst.
Qed.

Lemma fires_bound_stored (id : nat) (es : list FrameInput) :
  forall (lo t : Q) (st : Store),
    0 < GameSettings.dwellTime (settings st) ->
    Interaction.targetId (interactionRef st) = Some id ->
    Interaction.startTime (interactionRef st) = Some t ->
    0 < t -> t <= lo ->
    steady id lo es st ->
    inject_Z (Z.of_nat (totalFires (fst (run es st))))
      * GameSettings.dwellTime (settings st)
    <= endTime lo es - t.
Proof.
  induction es as [|e es IH]; intros lo t st Hdw Htid Hts H0 Hle Hst.
  - change (inject_Z (Z.of_nat (totalFires (fst (run [] st))))) with 0.
    change (endTime lo []) with lo. lra.
  - destruct Hst as (Hres & Hck & Hst).
    assert (Hok : timerOk lo st)
      by (unfold timerOk; rewrite Htid, Hts; split; assumption).
    destruct (tick_stored e st id lo Hdw Hres Hck Hok)
      as (t' & Ht' & Hs' & H0' & Hle' & Hb).
    assert (Et : timerStart id e st = t).
    { unfold timerStart. rewrite Htid, Hts.
      rewrite bool_decide_eq_true_2 by reflexivity. reflexivity. }
    rewrite Et in Hb.
    rewrite run_cons, endTime_cons. simpl fst. rewrite totalFires_cons.
    rewrite Nat2Z.inj_add, inject_Z_plus.
    pose proof (tick_settings Math_sin Math_cos e st) as Es.
    specialize (IH (nowRestart e) t' (fst (tick e st))).
    rewrite Es in IH. specialize (IH Hdw Ht' Hs' H0' Hle' Hst).
    lra.
Qed.

End DwellFacts.

Lemma gaze_faceNormal (e : FrameInput) (st : Store) (id : nat) :
  head (intersects e) ≫= Intersection.instanceId = Some id ->
  (id < length (localBlocksRef st))%nat ->
  Interaction.faceNormal (interactionRef (fst (gaze e st))) = keptNormal id e st.
Proof.
  intros Hhit Hlt. unfold gaze, keptNormal, hitNormal.
  destruct (intersects e) as [|hit rest]; [discriminate|]. simpl in Hhit.
  destruct (localBlocksRef st) as [|b0 bs]; [simpl in Hlt; lia|].
  rewrite Hhit. apply Nat.ltb_lt in Hlt. rewrite Hlt.
  destruct (bool_decide (Interaction.targetId (interactionRef st) = Some id));
    match goal with |- context [truthy ?t] => destruct (truthy t) end;
    try reflexivity;
    match goal with |- context [Qle_bool ?a ?b] => destruct (Qle_bool a b) end;
    simpl; rewrite ?performAction_interactionRef; reflexivity.
Qed.

Lemma gaze_absent (e : FrameInput) (st : Store) :
  intersects e = [] ->
  gaze e st
  = (set_interactionRef
       (Interaction.mk None None (Interaction.faceNormal (interactionRef st))) st,
     [HoverChange false 0]).
Proof.
  intros H. unfold gaze. rewrite H.
  destruct (localBlocksRef st); reflexivity.
Qed.

Lemma div_le_mono (a a' b : Q) : 0 < b -> a <= a' -> a / b <= a' / b.
Proof.
  intros Hb Ha. pose proof (div_mul a b Hb). pose proof (div_mul a' b Hb).
  nra.
Qed.

Lemma progress_range (el dw : Q) :
  0 < dw -> 0 <= el -> 0 <= Qmin (el / dw) 1 /\ Qmin (el / dw) 1 <= 1.
Proof.
  intros Hdw Hel. pose proof (div_mul el dw Hdw) as E.
  destruct (Q.min_spec (el / dw) 1) as [[H ->]|[H ->]]; split; nra.
Qed.

Lemma progress_mono (el el' dw : Q) :
  0 < dw -> el <= el' -> Qmin (el / dw) 1 <= Qmin (el' / dw) 1.
Proof.
  intros Hdw Hel. pose proof (div_le_mono el el' dw Hdw Hel).
  apply Q.min_le_compat_r. assumption.
Qed.

Section LoopFacts.

Variables Math_sin Math_cos : Q -> Q.

Local Abbreviation tick := (tick Math_sin Math_cos).
Local Abbreviation run := (run Math_sin Math_cos).
Local Abbreviation steady := (steady Math_sin Math_cos).

(** C9, as the code has it.  In a frame whose ray hits a block of the
    current list, the dwell target takes the face normal of that
    frame's nearest hit only when the hit's index differs from the
    stored target; when the index is the stored target's, the face
    normal stored at acquisition is kept, whatever face the ray now
    enters by. *)
Theorem faceNormal_set_at_acquisition (id : nat) (e : FrameInput) (st : Store) :
  resolved id e st ->
  Interaction.faceNormal (interactionRef (fst (tick e st))) = keptNormal id e st
  /\ (Interaction.targetId (interactionRef st) <> Some id ->
      Interaction.faceNormal (interactionRef (fst (tick e st))) = hitNormal e)
  /\ (Interaction.targetId (interactionRef st) = Some id ->
      Interaction.faceNormal (interactionRef (fst (tick e st)))
      = Interaction.faceNormal (interactionRef st)).
Proof.
  intros [Hhit Hlt].
  destruct (tick_gaze Math_sin Math_cos e st) as (s0 & -> & Hi & Hb & _).
  rewrite <- Hb in Hlt. rewrite (gaze_faceNormal e s0 id Hhit Hlt).
  unfold keptNormal. rewrite Hi.
  split; [reflexivity|]. split; intros H.
  - rewrite bool_decide_eq_false_2 by exact H. reflexivity.
  - rewrite bool_decide_eq_true_2 by exact H. reflexivity.
Qed.



End LoopFacts.

Ltac discharge :=
  repeat split; try reflexivity; try (vm_compute; discriminate); try (vm_compute; lia).

Lemma faceNormal_set_at_acquisition_witness :
  resolved 1 (frameAt 1 east 600) (fst (tick sinT cosT (frameAt 1 up 100) smallScene))
  /\ Interaction.faceNormal
       (interactionRef
          (fst (tick sinT cosT (frameAt 1 east 600)
                  (fst (tick sinT cosT (frameAt 1 up 100) smallScene)))))
     = Some up.
Proof.
  assert (R : resolved 1 (frameAt 1 east 600)
                (fst (tick sinT cosT (frameAt 1 up 100) smallScene)))
    by discharge.
  split; [exact R|].
  exact (proj1 (faceNormal_set_at_acquisition sinT cosT 1 (frameAt 1 east 600)
                  (fst (tick sinT cosT (frameAt 1 up 100) smallScene)) R)).
Defined.

(** C9 fails as stated: the second frame of [gazeRun] hits block 1 on its
    east face, and the dwell target still holds the top face's normal. *)
Lemma faceNormal_stale_on_same_target :
  let st1 := fst (tick sinT cosT (frameAt 1 up 100) smallScene) in
  let e2 := frameAt 1 east 600 in
  resolved 1 e2 st1
  /\ hitNormal e2 = Some east
  /\ Interaction.faceNormal (interactionRef (fst (tick sinT cosT e2 st1))) = Some up
  /\ Interaction.faceNormal (interactionRef (fst (tick sinT cosT e2 st1)))
     <> hitNormal e2.
Proof.
  cbv zeta. split; [discharge|]. split; [reflexivity|].
  split; [reflexivity|]. vm_compute. discriminate.
Qed.




(** ** The configured speeds *)

Lemma performAction_with_speeds ms ts index hit dateNow st :
  performAction index hit dateNow (with_speeds ms ts st)
  = with_speeds ms ts (performAction index hit dateNow st).
Proof.
  unfold performAction. simpl.
  destruct (localBlocksRef st !! index) as [b|]; [|reflexivity].
  destruct (modeRef st).
  - destruct (bool_decide (BlockData.type b = BEDROCK)); reflexivity.
  - destruct (Interaction.faceNormal (interactionRef st)); reflexivity.
Qed.

Lemma gaze_with_speeds ms ts e st :
  gaze e (with_speeds ms ts st)
  = (with_speeds ms ts (fst (gaze e st)), snd (gaze e st)).
Proof.
  unfold gaze. simpl.
  destruct (match localBlocksRef st with [] => [] | _ :: _ => intersects e end)
    as [|hit rest]; [reflexivity|].
  destruct (Intersection.instanceId hit) as [id|]; [|reflexivity].
  destruct (id <? length (localBlocksRef st))%nat; [|reflexivity].
  match goal with |- context [truthy ?t] => destruct (truthy t) end; [|reflexivity].
  match goal with |- context [Qle_bool ?a ?b] => destruct (Qle_bool a b) end;
    [|reflexivity].
  simpl. f_equal.
  match goal with |- context [performAction ?i ?h ?d (set_interactionRef ?v (with_speeds ms ts st))] =>
    change (set_interactionRef v (with_speeds ms ts st))
      with (with_speeds ms ts (set_interactionRef v st));
    rewrite (performAction_with_speeds ms ts i h d (set_interactionRef v st))
  end.
  reflexivity.
Qed.

Section SpeedFacts.

Variables Math_sin Math_cos : Q -> Q.

Local Abbreviation tick := (tick Math_sin Math_cos).
Local Abbreviation run := (run Math_sin Math_cos).
Local Abbreviation locomotion := (locomotion Math_sin Math_cos).

Lemma advance_with_speeds ms ts e st :
  advance Math_sin Math_cos e (with_speeds ms ts st)
  = with_speeds ms ts (advance Math_sin Math_cos e st).
Proof.
  unfold advance.
  change (locomotion e (with_speeds ms ts st)) with (locomotion e st).
  destruct (locomotion e st) as [np nr]. simpl.
  match goal with |- context [if ?c then _ else _] => destruct c end;
    reflexivity.
Qed.

Lemma tick_with_speeds ms ts e st :
  tick e (with_speeds ms ts st)
  = (with_speeds ms ts (fst (tick e st)), snd (tick e st)).
Proof.
  rewrite !tick_unfold.
  change (between e (with_speeds ms ts st))
    with (with_speeds ms ts (between e st)).
  rewrite advance_with_speeds. apply gaze_with_speeds.
Qed.

Lemma run_with_speeds ms ts es st :
  run es (with_speeds ms ts st)
  = (fst (run es st), with_speeds ms ts (snd (run es st))).
Proof.
  revert st. induction es as [|e es IH]; intros st; [reflexivity|].
  rewrite !run_cons, tick_with_speeds. simpl. rewrite IH. reflexivity.
Qed.

(** C8, as the code has it.  The loop reads neither the configured move
    speed nor the configured turn speed: a store that differs in them
    only runs through the same frames with the same events and the same
    results.  The rotation changes by the fixed rate 0.008 scaled by the
    zone depth, and a walking avatar moves by the fixed step 0.04 along
    the direction it faces after this frame's turn. *)
Theorem locomotion_ignores_settings (ms ts : Q) (es : list FrameInput)
    (e : FrameInput) (st : Store) :
  run es (with_speeds ms ts st)
  = (fst (run es st), with_speeds ms ts (snd (run es st)))
  /\ locomotion e (with_speeds ms ts st) = locomotion e st
  /\ snd (locomotion e st)
     = turn (innerWidth e) (fst (mousePosRef st))
         (PlayerState.rotation (playerStateRef st))
  /\ rotSpeed = 0.008 /\ speed = 0.04
  /\ Vector3.x (fst (locomotion e st))
     = (if PlayerState.isWalking (playerStateRef st)
        then Vector3.x (PlayerState.position (playerStateRef st))
             + Math_sin (snd (locomotion e st)) * speed
        else Vector3.x (PlayerState.position (playerStateRef st)))
  /\ Vector3.z (fst (locomotion e st))
     = (if PlayerState.isWalking (playerStateRef st)
        then Vector3.z (PlayerState.position (playerStateRef st))
             + Math_cos (snd (locomotion e st)) * speed
        else Vector3.z (PlayerState.position (playerStateRef st))).
Proof.
  split; [apply run_with_speeds|]. repeat split.
Qed.

End SpeedFacts.

(** C8 fails as stated: with the initial settings (turn speed 0.03, move
    speed 0.1) and the pointer at the left screen edge, the rotation
    changes by 0.008 and not by 0.03, and doubling both configured speeds
    changes nothing of the frame; a walking avatar that faces straight
    along z moves by 0.04, not by 0.1. *)
Lemma locomotion_not_configured :
  let e := frameAway 0 100 in
  let st := between e smallScene in
  GameSettings.turnSpeed (settings st) == 0.03
  /\ snd (locomotion sinT cosT e st) == 0.008
  /\ turn_spec (GameSettings.turnSpeed (settings st)) (innerWidth e)
       (fst (mousePosRef st)) (PlayerState.rotation (playerStateRef st)) == 0.03
  /\ ~ snd (locomotion sinT cosT e st)
       == turn_spec (GameSettings.turnSpeed (settings st)) (innerWidth e)
            (fst (mousePosRef st)) (PlayerState.rotation (playerStateRef st))
  /\ locomotion sinT cosT e (with_speeds 0.2 0.06 st) = locomotion sinT cosT e st
  /\ (let e' := frameWalk 100 in
      let st' := between e' smallScene in
      GameSettings.moveSpeed (settings st') == 0.1
      /\ cosT (snd (locomotion sinT cosT e' st')) == 1
      /\ Vector3.z (fst (locomotion sinT cosT e' st'))
         - Vector3.z (PlayerState.position (playerStateRef st')) == 0.04).
Proof.
  cbv zeta. repeat split; vm_compute; first [reflexivity | discriminate].
Qed.

Lemma differs_false (a b : Q) :
  differs a b = false -> a - b <= 0.001 /\ b - a <= 0.001.
Proof.
  unfold differs. intros H. apply Qltb_ge in H.
  apply Qabs_Qle_condition in H. lra.
Qed.

(** A step that moves the height by no more than a thousandth starts
    within a tenth of the target. *)
Lemma verticalStep_still (y T : Q) :
  verticalStep y T - y <= 0.001 -> y - verticalStep y T <= 0.001 ->
  T - 0.1 <= y /\ y <= T + 0.1.
Proof.
  unfold verticalStep. case_Qltb; intros; lra.
Qed.

Section TerrainFacts.

Variables Math_sin Math_cos : Q -> Q.

Local Abbreviation tick := (tick Math_sin Math_cos).
Local Abbreviation run := (run Math_sin Math_cos).
Local Abbreviation locomotion := (locomotion Math_sin Math_cos).
Local Abbreviation frameY := (frameY Math_sin Math_cos).
Local Abbreviation frameTarget := (frameTarget Math_sin Math_cos).
Local Abbreviation level := (level Math_sin Math_cos).

Lemma frameY_step (e : FrameInput) (st : Store) :
  frameY e st = verticalStep (heightOf st) (frameTarget e st).
Proof. reflexivity. Qed.

Lemma tick_height (e : FrameInput) (st : Store) :
  heightOf (fst (tick e st)) = frameY e st
  \/ (heightOf (fst (tick e st)) = heightOf st
      /\ differs (frameY e st) (heightOf st) = false).
Proof.
  rewrite tick_unfold, frameY_unfold. unfold heightOf.
  rewrite gaze_playerState. unfold advance.
  set (s0 := between e st).
  change (PlayerState.position (playerState st))
    with (PlayerState.position (playerStateRef s0)).
  destruct (locomotion e s0) as [np nr]. simpl fst.
  match goal with |- context [if ?c then _ else _] => destruct c eqn:C end.
  - left. reflexivity.
  - right. split; [reflexivity|].
    apply orb_false_elim in C. apply C.
Qed.

Lemma tick_closer (T d d' : Q) (e : FrameInput) (st : Store) :
  frameTarget e st == T -> 0.1 <= d ->
  T - d <= heightOf st -> heightOf st <= T + d ->
  0.1 <= d' -> d - 0.1 <= d' ->
  T - d' <= heightOf (fst (tick e st)) /\ heightOf (fst (tick e st)) <= T + d'.
Proof.
  intros ET Hd L U Hd' Hdd.
  pose proof (frameY_step e st) as EY.
  destruct (tick_height e st) as [->|[-> Hs]].
  - rewrite EY.
    destruct (verticalStep_closer (heightOf st) (frameTarget e st) d Hd); lra.
  - apply differs_false in Hs. rewrite EY in Hs.
    destruct (verticalStep_still (heightOf st) (frameTarget e st)); lra.
Qed.

Lemma level_reach (T : Q) (e : FrameInput) (post : list FrameInput)
    (pre : list FrameInput) :
  forall (n : nat) (st : Store),
    level T (pre ++ e :: post) st ->
    T - (inject_Z (Z.of_nat n) + 1) * 0.1 <= heightOf st ->
    heightOf st <= T + (inject_Z (Z.of_nat n) + 1) * 0.1 ->
    (n <= length pre)%nat ->
    frameY e (snd (run pre st)) == T.
Proof.
  induction pre as [|e0 pre IH]; intros n st Hlev L U Hn.
  - destruct n; [|simpl in Hn; lia]. destruct Hlev as [ET _].
    change (snd (run [] st)) with st. rewrite frameY_step.
    change (inject_Z (Z.of_nat 0)) with 0 in L, U.
    rewrite verticalStep_near by lra. exact ET.
  - rewrite <- app_comm_cons in Hlev. destruct Hlev as [ET Hlev].
    rewrite run_cons. simpl snd.
    pose proof (inject_nat_nonneg n) as Hnn.
    destruct n as [|n].
    + apply (IH 0%nat); [exact Hlev| | |lia];
        change (inject_Z (Z.of_nat 0)) with 0 in *;
        destruct (tick_closer T ((0 + 1) * 0.1) ((0 + 1) * 0.1) e0 st); lra.
    + pose proof (inject_nat_succ n) as Es.
      pose proof (inject_nat_nonneg n) as Hnn'.
      apply (IH n); [exact Hlev| | |simpl in Hn; lia];
        destruct (tick_closer T ((inject_Z (Z.of_nat (S n)) + 1) * 0.1)
                    ((inject_Z (Z.of_nat n) + 1) * 0.1) e0 st); lra.
Qed.

Lemma tick_rests (T : Q) (e : FrameInput) (st : Store) :
  frameY e st == T -> Qabs (heightOf (fst (tick e st)) - T) <= 0.001.
Proof.
  intros EY. apply Qabs_Qle_condition.
  destruct (tick_height e st) as [->|[-> Hs]].
  - lra.
  - apply differs_false in Hs. lra.
Qed.

Lemma tick_towards (e : FrameInput) (st : Store) :
  liesBetween (heightOf st) (heightOf (fst (tick e st))) (frameTarget e st).
Proof.
  pose proof (frameY_step e st) as EY.
  destruct (verticalStep_between (heightOf st) (frameTarget e st)) as [Hb Ha].
  destruct (tick_height e st) as [->|[-> _]].
  - rewrite EY.
    destruct (Qlt_le_dec (frameTarget e st) (heightOf st)) as [C|C].
    + right. apply Ha. lra.
    + left. apply Hb. exact C.
  - destruct (Qlt_le_dec (frameTarget e st) (heightOf st)) as [C|C].
    + right. lra.
    + left. lra.
Qed.

(** C6, as the code has it.  In every frame the target height is
    max(groundHeight, 1) + 1, and the next height is one vertical step
    from the current one: up by 0.2 but not past the target when below
    it, down by 0.1 but not past the target when above it, unchanged
    when on it.  So a step from at or below the target never ends above
    the target, and a step from above it ends no higher than it started
    (the height may well lie more than one ascend step above the target,
    and then comes down a tenth per frame); the height the frame leaves
    in the player state lies between the one it found and the target.
    With a target that stays at [T], the number of frames to the target
    is bounded: when [n] tenths cover the distance, every frame after
    the first [n] computes the height [T], and leaves the player state
    within the write threshold 0.001 of it. *)
Theorem terrain_following (T : Q) (n : nat) (e : FrameInput) (st : Store) :
  (let p := fst (locomotion e (between e st)) in
   frameTarget e st
   == Qmax (inject_Z (getTerrainHeightAt (Vector3.x p) (Vector3.z p)
                        (localBlocks st))) 1 + 1)
  /\ frameY e st = verticalStep (heightOf st) (frameTarget e st)
  /\ (forall y T' : Q,
        (y < T' -> verticalStep y T' == Qmin (y + 0.2) T')
        /\ (T' < y -> verticalStep y T' == Qmax (y - 0.1) T')
        /\ (y == T' -> verticalStep y T' = y)
        /\ (y <= T' -> y <= verticalStep y T' /\ verticalStep y T' <= T')
        /\ (T' <= y -> T' <= verticalStep y T' /\ verticalStep y T' <= y))
  /\ liesBetween (heightOf st) (heightOf (fst (tick e st))) (frameTarget e st)
  /\ (forall (pre : list FrameInput) (e' : FrameInput)
             (post : list FrameInput) (st' : Store),
        level T (pre ++ e' :: post) st' ->
        Qabs (heightOf st' - T) <= inject_Z (Z.of_nat n) * 0.1 ->
        (n <= length pre)%nat ->
        frameY e' (snd (run pre st')) == T
        /\ Qabs (heightOf (fst (tick e' (snd (run pre st')))) - T) <= 0.001).
Proof.
  split.
  { cbv zeta. rewrite <- groundHeight_query. apply targetHeight_max. }
  split; [reflexivity|].
  split.
  { intros y T'. split; [apply verticalStep_below|].
    split; [apply verticalStep_above|]. split; [apply verticalStep_at|].
    apply verticalStep_between. }
  split; [apply tick_towards|].
  intros pre e' post st' Hlev Hd Hn. apply Qabs_Qle_condition in Hd.
  assert (EY : frameY e' (snd (run pre st')) == T)
    by (apply (level_reach T e' post pre n st' Hlev); [lra|lra|exact Hn]).
  split; [exact EY|]. apply tick_rests, EY.
Qed.

End TerrainFacts.

Lemma terrain_following_witness :
  (level sinT cosT 2 (idleRun ++ [frameAway 500 176]) startScene
   /\ Qabs (heightOf startScene - 2) <= inject_Z (Z.of_nat 10) * 0.1
   /\ (10 <= length idleRun)%nat)
  /\ frameY sinT cosT (frameAway 500 176) (snd (run sinT cosT idleRun startScene)) == 2.
Proof.
  assert (H1 : level sinT cosT 2 (idleRun ++ [frameAway 500 176]) startScene)
    by (vm_compute; repeat split).
  assert (H2 : Qabs (heightOf startScene - 2) <= inject_Z (Z.of_nat 10) * 0.1)
    by (vm_compute; discriminate).
  assert (H3 : (10 <= length idleRun)%nat) by (vm_compute; lia).
  split; [auto|].
  destruct (terrain_following sinT cosT 2 10 (frameAway 500 16) startScene)
    as (_ & _ & _ & _ & H).
  exact (proj1 (H idleRun (frameAway 500 176) [] startScene H1 H2 H3)).
Defined.

(** C6 fails as stated: the game starts with the avatar at height 3 over
    ground of height 1, so the target is 2, and the first frame brings the
    height to 2.9, more than one ascend step (0.2) above the target. *)
Lemma height_more_than_a_step_above_target :
  let e := frameAway 500 16 in
  heightOf startScene == 3
  /\ frameTarget sinT cosT e startScene == 2
  /\ frameY sinT cosT e startScene == 2.9
  /\ heightOf (fst (tick sinT cosT e startScene)) == 2.9
  /\ frameTarget sinT cosT e startScene + 0.2 < frameY sinT cosT e startScene.
Proof.
  cbv zeta. repeat split; vm_compute; reflexivity.
Qed.

(** The player state may rest off the target: from half a thousandth
    above it the frame computes the target height, but the change is
    below the write threshold and the state keeps its height. *)
Lemma stored_height_rests_off_target :
  let e := frameAway 500 16 in
  frameTarget sinT cosT e nearScene == 2
  /\ frameY sinT cosT e nearScene == 2
  /\ heightOf (fst (tick sinT cosT e nearScene)) == 2.0005.
Proof.
  cbv zeta. repeat split; vm_compute; reflexivity.
Qed.

(** ** The specification's two scenarios *)

(** BUILD with STONE selected, against a block at (5,1,5) looked at on its
    top face: once the dwell time has passed, a STONE block stands at
    (5,2,5). *)
Example scenario_build :
  localBlocks
    (snd (run sinT cosT [frameAt 2 up 100; frameAt 2 up 1100]
            (scene BUILD STONE INITIAL_INVENTORY fewBlocks INITIAL_PLAYER idle)))
  = fewBlocks ++ [BlockData.mk "placed-0" STONE 5 2 5].
Proof. vm_compute. reflexivity. Qed.

(** MINE, a GRASS block at (2,1,2), an empty inventory: after the dwell
    fires once the inventory is [{ GRASS: 1 }] and the block is gone. *)
Example scenario_mine :
  let st := snd (run sinT cosT [frameAt 1 up 100; frameAt 1 up 1100]
                   (scene MINE WOOD ∅ fewBlocks INITIAL_PLAYER idle)) in
  inventory st = {["GRASS" := 1%Z]}
  /\ localBlocks st
     = [BlockData.mk "fb-bedrock-2-2" BEDROCK 2 0 2;
        BlockData.mk "fb-grass-5-5" GRASS 5 1 5].
Proof. cbv zeta. split; vm_compute; reflexivity. Qed.

(** * Further facts *)

(** ** Rounding *)

Lemma Math_round_inject (n : Z) : Math_round (inject_Z n) = n.
Proof.
  pose proof (Math_round_shift n 0) as H.
  assert (E : inject_Z n + 0 == inject_Z n) by lra.
  unfold Math_round in *.
  assert (E' : inject_Z n + (1 # 2) == inject_Z n + 0 + (1 # 2)) by lra.
  rewrite (Qfloor_comp _ _ E'), H. change (Qfloor (0 + (1 # 2))) with 0%Z. lia.
Qed.

(** X1.  [Math.round] gives the nearest integer, halves going up. *)
Theorem Math_round_nearest (v : Q) (n : Z) :
  v - (1 # 2) < inject_Z (Math_round v)
  /\ inject_Z (Math_round v) <= v + (1 # 2)
  /\ Math_round (inject_Z n) = n
  /\ Math_round (inject_Z n + (1 # 2)) = (n + 1)%Z
  /\ (forall w : Q, v <= w -> (Math_round v <= Math_round w)%Z).
Proof.
  unfold Math_round.
  pose proof (Qfloor_le (v + (1 # 2))) as Hle.
  pose proof (Qlt_floor (v + (1 # 2))) as Hlt.
  rewrite inject_Z_plus in Hlt. change (inject_Z 1) with 1 in Hlt.
  split; [lra|]. split; [lra|]. split; [|split].
  - apply Math_round_inject.
  - pose proof (Math_round_shift n (1 # 2)) as H. unfold Math_round in H.
    rewrite H. change (Qfloor ((1 # 2) + (1 # 2))) with 1%Z. reflexivity.
  - intros w Hw. apply Qfloor_resp_le. lra.
Qed.

Lemma Math_round_nearest_witness : (Math_round (5 # 2) <= Math_round 3)%Z.
Proof.
  apply (Math_round_nearest (5 # 2) 0). vm_compute. discriminate.
Defined.

(** ** The terrain query under changes of the block list *)

Lemma columnSolids_app (x z : Q) (l1 l2 : list BlockData.t) :
  columnSolids x z (l1 ++ l2) = columnSolids x z l1 ++ columnSolids x z l2.
Proof. unfold columnSolids. rewrite List.filter_app, map_app. reflexivity. Qed.

Lemma fold_max_app_one (l : list Z) (a y : Z) :
  fold_left Z.max (l ++ [y]) a = Z.max (fold_left Z.max l a) y.
Proof. rewrite fold_left_app. reflexivity. Qed.

Lemma fold_max_mono (l : list Z) (a b : Z) :
  (a <= b)%Z -> (fold_left Z.max l a <= fold_left Z.max l b)%Z.
Proof.
  revert a b. induction l as [|y l IH]; intros a b H; simpl; [exact H|].
  apply IH. lia.
Qed.

Lemma fold_max_perm (l l' : list Z) (a : Z) :
  Permutation l l' -> fold_left Z.max l a = fold_left Z.max l' a.
Proof.
  intros H. revert a. induction H; intros a; simpl.
  - reflexivity.
  - apply IHPermutation.
  - f_equal. lia.
  - rewrite IHPermutation1. apply IHPermutation2.
Qed.

Lemma columnSolids_perm (x z : Q) (l l' : list BlockData.t) :
  Permutation l l' -> Permutation (columnSolids x z l) (columnSolids x z l').
Proof.
  intros H. unfold columnSolids. apply Permutation_map.
  induction H; simpl.
  - constructor.
  - destruct (_ && _); [constructor|]; assumption.
  - repeat destruct (_ && _); try reflexivity; try constructor.
  - etransitivity; eassumption.
Qed.

Lemma fold_max_delete (l : list Z) (i : nat) (a : Z) :
  (fold_left Z.max (delete i l) a <= fold_left Z.max l a)%Z.
Proof.
  revert i a. induction l as [|y l IH]; intros i a; [destruct i; simpl; lia|].
  destruct i as [|i]; simpl.
  - apply fold_max_mono. lia.
  - apply IH.
Qed.

Lemma getTerrainHeightAt_delete (x z : Q) (l : list BlockData.t) (i : nat) :
  (getTerrainHeightAt x z (delete i l) <= getTerrainHeightAt x z l)%Z.
Proof.
  rewrite !getTerrainHeightAt_fold.
  revert i. generalize (-10)%Z as a.
  induction l as [|b l IH]; intros a i; [destruct i; simpl; lia|].
  destruct i as [|i].
  - change (delete 0%nat (b :: l)) with l.
    change (b :: l) with ([b] ++ l). rewrite columnSolids_app.
    rewrite fold_left_app.
    apply fold_max_mono. apply fold_max_ge_init.
  - change (delete (S i) (b :: l)) with (b :: delete i l).
    change (b :: delete i l) with ([b] ++ delete i l).
    change (b :: l) with ([b] ++ l). rewrite !columnSolids_app, !fold_left_app.
    apply IH.
Qed.

Lemma getTerrainHeightAt_snoc (x z : Q) (l : list BlockData.t) (b : BlockData.t) :
  getTerrainHeightAt x z (l ++ [b])
  = if ((BlockData.x b =? Math_round x) && (BlockData.z b =? Math_round z))%Z
       && solid (BlockData.type b)
    then Z.max (getTerrainHeightAt x z l) (BlockData.y b)
    else getTerrainHeightAt x z l.
Proof.
  rewrite !getTerrainHeightAt_fold, columnSolids_app, fold_left_app.
  generalize (fold_left Z.max (columnSolids x z l) (-10)%Z) as h. intros h.
  unfold columnSolids. simpl.
  destruct (_ && _); reflexivity.
Qed.

(** X2.  The terrain height depends on the query point through its rounded
    column only and on the block list as a multiset only, and is never
    below the sentinel. *)
Theorem getTerrainHeightAt_column_and_order (x z x' z' : Q)
    (blocks blocks' : list BlockData.t) :
  Math_round x = Math_round x' -> Math_round z = Math_round z' ->
  Permutation blocks blocks' ->
  getTerrainHeightAt x z blocks = getTerrainHeightAt x' z' blocks'
  /\ (-10 <= getTerrainHeightAt x z blocks)%Z.
Proof.
  intros Hx Hz Hp. split.
  - rewrite !getTerrainHeightAt_fold.
    assert (E : columnSolids x' z' blocks' = columnSolids x z blocks')
      by (unfold columnSolids; rewrite Hx, Hz; reflexivity).
    rewrite E. apply fold_max_perm, columnSolids_perm, Hp.
  - rewrite getTerrainHeightAt_fold. apply fold_max_ge_init.
Qed.

Lemma getTerrainHeightAt_column_and_order_witness :
  getTerrainHeightAt (19 # 10) (21 # 10) fewBlocks
  = getTerrainHeightAt 2 2 (rev fewBlocks).
Proof.
  apply (getTerrainHeightAt_column_and_order (19 # 10) (21 # 10) 2 2
           fewBlocks (rev fewBlocks)); [reflexivity|reflexivity|].
  apply Permutation_rev.
Defined.

(** ** The action executor, further *)

Lemma performAction_none_eq (index : nat) (hit : Intersection.t) (dateNow : Z)
    (st : Store) :
  localBlocksRef st !! index = None -> performAction index hit dateNow st = st.
Proof. intros H. unfold performAction. rewrite H. reflexivity. Qed.

Lemma performAction_bedrock_eq (index : nat) (hit : Intersection.t) (dateNow : Z)
    (st : Store) (b : BlockData.t) :
  localBlocksRef st !! index = Some b -> modeRef st = MINE ->
  BlockData.type b = BEDROCK ->
  performAction index hit dateNow st = st.
Proof.
  intros Hl Hm Ht. unfold performAction. rewrite Hl, Hm.
  rewrite bool_decide_eq_true_2 by exact Ht. reflexivity.
Qed.

Lemma performAction_mine_eq (index : nat) (hit : Intersection.t) (dateNow : Z)
    (st : Store) (b : BlockData.t) :
  localBlocksRef st !! index = Some b -> modeRef st = MINE ->
  BlockData.type b <> BEDROCK ->
  performAction index hit dateNow st
  = set_localBlocks (delete index (localBlocksRef st))
      (set_inventory
         (<[BlockType_key (BlockData.type b)
            := (or0 (inventoryRef st !! BlockType_key (BlockData.type b)) + 1)%Z]>
            (inventoryRef st)) st).
Proof.
  intros Hl Hm Ht. unfold performAction. rewrite Hl, Hm.
  rewrite bool_decide_eq_false_2 by exact Ht. reflexivity.
Qed.

Lemma performAction_build_eq (index : nat) (hit : Intersection.t) (dateNow : Z)
    (st : Store) (b : BlockData.t) (n : Vector3.t) :
  localBlocksRef st !! index = Some b -> modeRef st = BUILD ->
  Interaction.faceNormal (interactionRef st) = Some n ->
  performAction index hit dateNow st
  = set_localBlocks
      (localBlocks st
       ++ [BlockData.mk ("placed-" +:+ pretty dateNow) (selectedBlockRef st)
             (Math_round (inject_Z (BlockData.x b) + Vector3.x n))
             (Math_round (inject_Z (BlockData.y b) + Vector3.y n))
             (Math_round (inject_Z (BlockData.z b) + Vector3.z n))])
      (set_inventory (inventoryRef st) st).
Proof.
  intros Hl Hm Hn. unfold performAction. rewrite Hl, Hm, Hn. reflexivity.
Qed.

Lemma performAction_cases (index : nat) (hit : Intersection.t) (dateNow : Z)
    (st : Store) :
  performAction index hit dateNow st = st
  \/ (exists b : BlockData.t,
        localBlocksRef st !! index = Some b /\ modeRef st = MINE
        /\ BlockData.type b <> BEDROCK
        /\ performAction index hit dateNow st
           = set_localBlocks (delete index (localBlocksRef st))
               (set_inventory
                  (<[BlockType_key (BlockData.type b)
                     := (or0 (inventoryRef st !! BlockType_key (BlockData.type b)) + 1)%Z]>
                     (inventoryRef st)) st))
  \/ (exists (b : BlockData.t) (n : Vector3.t),
        localBlocksRef st !! index = Some b /\ modeRef st = BUILD
        /\ Interaction.faceNormal (interactionRef st) = Some n
        /\ performAction index hit dateNow st
           = set_localBlocks
               (localBlocks st
                ++ [BlockData.mk ("placed-" +:+ pretty dateNow) (selectedBlockRef st)
                      (Math_round (inject_Z (BlockData.x b) + Vector3.x n))
                      (Math_round (inject_Z (BlockData.y b) + Vector3.y n))
                      (Math_round (inject_Z (BlockData.z b) + Vector3.z n))])
               (set_inventory (inventoryRef st) st)).
Proof.
  unfold performAction.
  destruct (localBlocksRef st !! index) as [b|] eqn:Hb; [|now left].
  destruct (modeRef st) eqn:Hm.
  - case_bool_decide as Ht; [now left|].
    right; left. exists b. repeat split; assumption.
  - destruct (Interaction.faceNormal (interactionRef st)) as [n|] eqn:Hn;
      [|now left].
    right; right. exists b, n. repeat split.
Qed.

Lemma performAction_length (index : nat) (hit : Intersection.t)
    (dateNow : Z) (st : Store) :
  synced st ->
  let st' := performAction index hit dateNow st in
  st' = set_localBlocks (localBlocks st') (set_inventory (inventory st') st)
  /\ (length (localBlocks st') = length (localBlocks st)
      \/ (mode st = MINE /\ S (length (localBlocks st')) = length (localBlocks st))
      \/ (mode st = BUILD /\ length (localBlocks st') = S (length (localBlocks st)))).
Proof.
  intros (Hb & Hi & Hm & Hs). cbv zeta.
  destruct (performAction_cases index hit dateNow st)
    as [->|[(b & Hl & Hmo & Hne & ->)|(b & n & Hl & Hmo & Hn & ->)]].
  - split; [destruct st; reflexivity|]. now left.
  - split; [reflexivity|]. right; left. split; [congruence|].
    simpl. rewrite length_delete by (rewrite Hl; eauto).
    apply lookup_lt_Some in Hl. rewrite <- Hb. lia.
  - split; [reflexivity|]. right; right. split; [congruence|].
    simpl. rewrite length_app. simpl. lia.
Qed.

(** X3.  The executor writes the block list and the inventory and nothing
    else, and changes the number of blocks by at most one: down in MINE
    mode, up in BUILD mode. *)
Theorem performAction_writes_world_only (index : nat) (hit : Intersection.t)
    (dateNow : Z) (st : Store) :
  synced st ->
  let st' := performAction index hit dateNow st in
  st' = set_localBlocks (localBlocks st') (set_inventory (inventory st') st)
  /\ (length (localBlocks st') = length (localBlocks st)
      \/ (mode st = MINE /\ S (length (localBlocks st')) = length (localBlocks st))
      \/ (mode st = BUILD /\ length (localBlocks st') = S (length (localBlocks st)))).
Proof. exact (performAction_length index hit dateNow st). Qed.

Lemma performAction_writes_world_only_witness :
  length (localBlocks (performAction 1 noHit 0 smallScene)) = 2%nat.
Proof.
  destruct (performAction_writes_world_only 1 noHit 0 smallScene
              (conj eq_refl (conj eq_refl (conj eq_refl eq_refl))))
    as [_ [H|[[_ H]|[H _]]]].
  - discriminate H.
  - exact (eq_add_S _ _ H).
  - discriminate H.
Defined.

(** No action lowers an inventory count, and counts that are all
    non-negative stay so. *)
Lemma performAction_counts (index : nat) (hit : Intersection.t)
    (dateNow : Z) (st : Store) :
  synced st ->
  let st' := performAction index hit dateNow st in
  (forall t : BlockType,
     (inventoryCount (inventory st) t <= inventoryCount (inventory st') t)%Z)
  /\ (nonNegative (inventory st) -> nonNegative (inventory st')).
Proof.
  intros (Hb & Hi & Hm & Hs). cbv zeta.
  destruct (performAction_cases index hit dateNow st)
    as [->|[(b & Hl & Hmo & Hne & ->)|(b & n & Hl & Hmo & Hn & ->)]].
  - split; [intros; lia|auto].
  - simpl. rewrite Hi. split.
    + intros t. unfold inventoryCount.
      destruct (decide (BlockType_key (BlockData.type b) = BlockType_key t)) as [E|E].
      * rewrite E, lookup_insert_eq, or0_succ. lia.
      * rewrite lookup_insert_ne by exact E. lia.
    + intros Hnn k c. rewrite lookup_insert.
      case_decide as E.
      * intros [= <-]. destruct (inventory st !! BlockType_key (BlockData.type b))
          as [c0|] eqn:Hc; simpl; [|lia].
        specialize (Hnn _ _ Hc). destruct (Z.eqb_spec c0 0); lia.
      * apply Hnn.
  - simpl. rewrite Hi. split; [intros; lia|auto].
Qed.

(** X4.  Once a block is mined and the refs are brought up to date, every
    index below the mined one addresses the block it did, and every index
    from the mined one on addresses the block that came next in the old
    list: an index kept across the mutation points at another block. *)
Theorem mine_shifts_indices (index : nat) (hit : Intersection.t) (dateNow : Z)
    (st : Store) (b : BlockData.t) (j : nat) :
  synced st -> mode st = MINE -> localBlocks st !! index = Some b ->
  BlockData.type b <> BEDROCK ->
  let st' := commit (performAction index hit dateNow st) in
  ((j < index)%nat -> localBlocksRef st' !! j = localBlocks st !! j)
  /\ ((index <= j)%nat -> localBlocksRef st' !! j = localBlocks st !! S j).
Proof.
  intros (Hb & Hi & Hmo & _) Hm Hl Hne. cbv zeta.
  change (localBlocksRef (commit (performAction index hit dateNow st)))
    with (localBlocks (performAction index hit dateNow st)).
  rewrite (performAction_mine_eq index hit dateNow st b)
    by (first [rewrite Hb; exact Hl | rewrite Hmo; exact Hm | exact Hne]).
  simpl. rewrite Hb. split; intros Hj.
  - apply list_lookup_delete_lt, Hj.
  - apply list_lookup_delete_ge, Hj.
Qed.

Lemma mine_shifts_indices_witness :
  localBlocksRef (commit (performAction 1 noHit 0 smallScene)) !! 1%nat
  = Some (BlockData.mk "fb-grass-5-5" GRASS 5 1 5).
Proof.
  destruct (mine_shifts_indices 1 noHit 0 smallScene
              (BlockData.mk "fb-grass-2-2" GRASS 2 1 2) 1
              (conj eq_refl (conj eq_refl (conj eq_refl eq_refl)))
              eq_refl eq_refl ltac:(discriminate)) as [_ H].
  exact (H (le_n 1)).
Defined.

(** X5.  A second BUILD action on the same index with the face normal still
    stored puts a second block into the cell of the first: the two
    placed blocks differ in their ids at most. *)
Theorem build_twice_coincides (index : nat) (h1 h2 : Intersection.t)
    (d1 d2 : Z) (st : Store) (b : BlockData.t) (n : Vector3.t) :
  synced st -> mode st = BUILD -> localBlocks st !! index = Some b ->
  Interaction.faceNormal (interactionRef st) = Some n ->
  let st2 := performAction index h2 d2 (commit (performAction index h1 d1 st)) in
  exists nb1 nb2 : BlockData.t,
    localBlocks st2 = localBlocks st ++ [nb1; nb2]
    /\ cellOf nb1 = cellOf nb2
    /\ BlockData.type nb1 = selectedBlockType st
    /\ BlockData.type nb2 = selectedBlockType st
    /\ BlockData.id nb1 = "placed-" +:+ pretty d1
    /\ BlockData.id nb2 = "placed-" +:+ pretty d2.
Proof.
  intros (Hb & Hi & Hmo & Hsel) Hm Hl Hn. cbv zeta.
  assert (E1 := performAction_build_eq index h1 d1 st b n).
  rewrite Hb, Hmo, Hsel in E1. specialize (E1 Hl Hm Hn).
  set (st1 := commit (performAction index h1 d1 st)).
  assert (E2 := performAction_build_eq index h2 d2 st1 b n).
  unfold st1 in E2 at 1 2 3. rewrite E1 in E2. simpl in E2.
  specialize (E2 (lookup_app_l_Some _ _ _ _ Hl) Hm Hn).
  rewrite E2. unfold st1. rewrite E1. simpl.
  eexists _, _. split; [rewrite <- app_assoc; reflexivity|].
  repeat split.
Qed.

Lemma build_twice_coincides_witness :
  exists nb1 nb2 : BlockData.t,
    localBlocks
      (performAction 2 noHit 8
         (commit (performAction 2 noHit 7
                    (scene BUILD STONE INITIAL_INVENTORY fewBlocks INITIAL_PLAYER
                       (Interaction.mk (Some 2%nat) (Some 5) (Some up))))))
    = fewBlocks ++ [nb1; nb2]
    /\ cellOf nb1 = cellOf nb2.
Proof.
  destruct (build_twice_coincides 2 noHit noHit 7 8
              (scene BUILD STONE INITIAL_INVENTORY fewBlocks INITIAL_PLAYER
                 (Interaction.mk (Some 2%nat) (Some 5) (Some up)))
              (BlockData.mk "fb-grass-5-5" GRASS 5 1 5) up
              (conj eq_refl (conj eq_refl (conj eq_refl eq_refl)))
              eq_refl eq_refl eq_refl) as (nb1 & nb2 & H1 & H2 & _).
  exists nb1, nb2. split; assumption.
Defined.

(** X6.  Mining never raises and building never lowers the terrain height,
    at any query point; and a block of a solid type built on the top face
    of a column's highest block raises that column by one. *)
Theorem performAction_terrain (index : nat) (hit : Intersection.t)
    (dateNow : Z) (st : Store) (x z : Q) :
  synced st ->
  let st' := performAction index hit dateNow st in
  (mode st = MINE ->
   (getTerrainHeightAt x z (localBlocks st')
    <= getTerrainHeightAt x z (localBlocks st))%Z)
  /\ (mode st = BUILD ->
      (getTerrainHeightAt x z (localBlocks st)
       <= getTerrainHeightAt x z (localBlocks st'))%Z)
  /\ (forall b : BlockData.t,
        mode st = BUILD -> localBlocks st !! index = Some b ->
        Interaction.faceNormal (interactionRef st) = Some (Vector3.mk 0 1 0) ->
        solid (selectedBlockType st) = true ->
        getTerrainHeightAt (inject_Z (BlockData.x b)) (inject_Z (BlockData.z b))
          (localBlocks st) = BlockData.y b ->
        getTerrainHeightAt (inject_Z (BlockData.x b)) (inject_Z (BlockData.z b))
          (localBlocks st') = (BlockData.y b + 1)%Z).
Proof.
  intros Hs. pose proof Hs as (Hb & Hi & Hm & Hsel). cbv zeta.
  split; [|split].
  - intros Hmo.
    destruct (performAction_cases index hit dateNow st)
      as [->|[(b & Hl & _ & Hne & ->)|(b & n & Hl & Hmo' & Hn & ->)]].
    + lia.
    + simpl. rewrite Hb. apply getTerrainHeightAt_delete.
    + congruence.
  - intros Hmo.
    destruct (performAction_cases index hit dateNow st)
      as [->|[(b & Hl & Hmo' & Hne & ->)|(b & n & Hl & _ & Hn & ->)]].
    + lia.
    + congruence.
    + simpl. rewrite getTerrainHeightAt_snoc. destruct (_ && _); lia.
  - intros b Hmo Hl Hn Hsol Hh.
    rewrite (performAction_build_eq index hit dateNow st b (Vector3.mk 0 1 0))
      by (first [rewrite Hb; exact Hl | rewrite Hm; exact Hmo | exact Hn]).
    simpl. rewrite getTerrainHeightAt_snoc. simpl.
    rewrite !Math_round_shift, !Math_round_inject, Hsel, Hsol, Hh.
    change (Math_round 0) with 0%Z. change (Math_round 1) with 1%Z.
    rewrite !Z.add_0_r, !Z.eqb_refl. simpl. lia.
Qed.

Lemma performAction_terrain_witness :
  getTerrainHeightAt 5 5
    (localBlocks
       (performAction 2 noHit 7
          (scene BUILD STONE INITIAL_INVENTORY fewBlocks INITIAL_PLAYER
             (Interaction.mk (Some 2%nat) (Some 5) (Some up)))))
  = 2%Z.
Proof.
  destruct (performAction_terrain 2 noHit 7
              (scene BUILD STONE INITIAL_INVENTORY fewBlocks INITIAL_PLAYER
                 (Interaction.mk (Some 2%nat) (Some 5) (Some up))) 5 5
              (conj eq_refl (conj eq_refl (conj eq_refl eq_refl))))
    as (_ & _ & H).
  exact (H (BlockData.mk "fb-grass-5-5" GRASS 5 1 5) eq_refl eq_refl eq_refl
           eq_refl eq_refl).
Defined.

(** ** Frames, further *)

(** What a frame's dwell machine does to the world: nothing, with no call
    of the executor, or one call of the executor for the hit index. *)
Lemma gaze_world (e : FrameInput) (st : Store) :
  (fires (snd (gaze e st)) = 0%nat
   /\ localBlocks (fst (gaze e st)) = localBlocks st
   /\ inventory (fst (gaze e st)) = inventory st)
  \/ (exists (id : nat) (hit : Intersection.t) (i1 : Interaction.t),
        fires (snd (gaze e st)) = 1%nat
        /\ head (intersects e) ≫= Intersection.instanceId = Some id
        /\ localBlocks (fst (gaze e st))
           = localBlocks (performAction id hit (dateNow e) (set_interactionRef i1 st))
        /\ inventory (fst (gaze e st))
           = inventory (performAction id hit (dateNow e) (set_interactionRef i1 st))).
Proof.
  unfold gaze.
  destruct (localBlocksRef st) as [|b0 bs]; [left; repeat split|].
  destruct (intersects e) as [|hit rest]; [left; repeat split|].
  simpl head. simpl mbind.
  destruct (Intersection.instanceId hit) as [id|]; [|left; repeat split].
  destruct (id <? length (b0 :: bs))%nat; [|left; repeat split].
  match goal with |- context [truthy ?t] => destruct (truthy t) end;
    [|left; repeat split].
  match goal with |- context [Qle_bool ?a ?b] => destruct (Qle_bool a b) end;
    [|left; repeat split].
  right. eexists id, hit, _. repeat split.
Qed.

Lemma paired_gaze (e : FrameInput) (st : Store) :
  paired st -> paired (fst (gaze e st)).
Proof.
  unfold paired, gaze. intros H.
  destruct (localBlocksRef st) as [|b0 bs]; [simpl; tauto|].
  destruct (intersects e) as [|hit rest]; [simpl; tauto|].
  destruct (Intersection.instanceId hit) as [id|]; [|exact H].
  destruct (id <? length (b0 :: bs))%nat; [|exact H].
  case_bool_decide as Ht.
  - destruct (truthy _); [|exact H].
    destruct (Qle_bool _ _); [|exact H].
    simpl. rewrite performAction_interactionRef. simpl. rewrite Ht.
    split; discriminate.
  - destruct (truthy _); [|simpl; split; discriminate].
    destruct (Qle_bool _ _); [|simpl; split; discriminate].
    simpl. rewrite performAction_interactionRef. simpl.
    split; discriminate.
Qed.

Section FrameFacts2.

Variables Math_sin Math_cos : Q -> Q.

Local Abbreviation tick := (tick Math_sin Math_cos).
Local Abbreviation run := (run Math_sin Math_cos).

(** The store the dwell machine of a turn starts from. *)
Lemma tick_synced (e : FrameInput) (st : Store) :
  exists s0 : Store,
    tick e st = gaze e s0
    /\ synced s0
    /\ localBlocks s0 = localBlocks st /\ inventory s0 = inventory st
    /\ mode s0 = mode st /\ selectedBlockType s0 = selectedBlockType st
    /\ interactionRef s0 = interactionRef st.
Proof.
  exists (advance Math_sin Math_cos e (between e st)).
  rewrite tick_unfold.
  destruct (advance_shape Math_sin Math_cos e (between e st)) as (ps & w & g & ->).
  repeat split.
Qed.

Lemma tick_mode (e : FrameInput) (st : Store) :
  mode (fst (tick e st)) = mode st.
Proof.
  destruct (tick_synced e st) as (s0 & -> & _ & _ & _ & <- & _).
  destruct (gaze_shape e s0) as (i & v & b & ->). reflexivity.
Qed.

(** X7.  A frame calls the executor at most once, and a frame that does not
    call it leaves the block list and the inventory alone; along any run
    the block count moves by at most the number of calls, no inventory
    count goes down, and non-negative counts stay non-negative. *)
Theorem run_world_bounds (es : list FrameInput) (st : Store) :
  Forall (fun evs => (fires evs <= 1)%nat) (fst (run es st))
  /\ (totalFires (fst (run es st)) = 0%nat ->
      localBlocks (snd (run es st)) = localBlocks st
      /\ inventory (snd (run es st)) = inventory st)
  /\ (length (localBlocks (snd (run es st)))
      <= length (localBlocks st) + totalFires (fst (run es st)))%nat
  /\ (length (localBlocks st)
      <= length (localBlocks (snd (run es st))) + totalFires (fst (run es st)))%nat
  /\ (forall t : BlockType,
        (inventoryCount (inventory st) t
         <= inventoryCount (inventory (snd (run es st))) t)%Z)
  /\ (nonNegative (inventory st) -> nonNegative (inventory (snd (run es st)))).
Proof.
  revert st. induction es as [|e es IH]; intros st.
  - simpl. repeat split; auto; lia.
  - rewrite run_cons. simpl fst. simpl snd. rewrite totalFires_cons.
    destruct (IH (fst (tick e st))) as (F & Z0 & L1 & L2 & Inv & NN).
    destruct (tick_synced e st) as (s0 & Et & Hs0 & Hb & Hi & _).
    assert (W : (fires (snd (tick e st)) <= 1)%nat
                /\ (fires (snd (tick e st)) = 0%nat ->
                    localBlocks (fst (tick e st)) = localBlocks st
                    /\ inventory (fst (tick e st)) = inventory st)
                /\ (length (localBlocks (fst (tick e st)))
                    <= length (localBlocks st) + fires (snd (tick e st)))%nat
                /\ (length (localBlocks st)
                    <= length (localBlocks (fst (tick e st))) + fires (snd (tick e st)))%nat
                /\ (forall t, (inventoryCount (inventory st) t
                               <= inventoryCount (inventory (fst (tick e st))) t)%Z)
                /\ (nonNegative (inventory st)
                    -> nonNegative (inventory (fst (tick e st))))).
    { rewrite Et.
      destruct (gaze_world e s0) as [(-> & -> & ->)|(id & hit & i1 & -> & _ & -> & ->)].
      - rewrite Hb, Hi. repeat split; auto; lia.
      - assert (Hs1 : synced (set_interactionRef i1 s0)) by exact Hs0.
        destruct (performAction_length id hit (dateNow e) _ Hs1) as [_ Hlen].
        destruct (performAction_counts id hit (dateNow e) _ Hs1) as [Hmon Hnn].
        simpl in Hlen, Hmon, Hnn. rewrite Hb in Hlen. rewrite Hi in Hmon, Hnn.
        split; [lia|]. split; [discriminate|].
        split; [lia|]. split; [lia|]. split; assumption. }
    destruct W as (W1 & W0 & WL1 & WL2 & WInv & WNN).
    split; [constructor; assumption|].
    split.
    { intros Hz. assert (fires (snd (tick e st)) = 0%nat) by lia.
      assert (totalFires (fst (run es (fst (tick e st)))) = 0%nat) by lia.
      destruct (W0 ltac:(assumption)) as [<- <-]. apply Z0. assumption. }
    split; [lia|]. split; [lia|]. split.
    { intros t. specialize (WInv t). specialize (Inv t). lia. }
    auto.
Qed.

(** X8.  The dwell target's index and start time are both set or both null
    after every frame of every run that starts so. *)
Theorem run_keeps_target_and_timer_paired (es : list FrameInput) (st : Store) :
  paired st -> paired (snd (run es st)).
Proof.
  revert st. induction es as [|e es IH]; intros st H; [exact H|].
  rewrite run_cons. simpl snd. apply IH.
  destruct (tick_synced e st) as (s0 & -> & _ & _ & _ & _ & _ & Hi).
  apply paired_gaze. unfold paired. rewrite Hi. exact H.
Qed.

(** X9.  In MINE mode a run that looks at BEDROCK blocks only leaves the
    block list and the inventory as they were, however often the dwell
    fires. *)
Theorem bedrock_is_never_mined (es : list FrameInput) (st : Store) :
  mode st = MINE -> onlyBedrock (localBlocks st) es ->
  localBlocks (snd (run es st)) = localBlocks st
  /\ inventory (snd (run es st)) = inventory st.
Proof.
  revert st. induction es as [|e es IH]; intros st Hm Hall; [split; reflexivity|].
  apply Forall_cons in Hall. destruct Hall as [He Hall].
  rewrite run_cons. simpl snd.
  assert (W : localBlocks (fst (tick e st)) = localBlocks st
              /\ inventory (fst (tick e st)) = inventory st).
  { destruct (tick_synced e st) as (s0 & -> & Hs0 & Hb & Hi & Hm0 & _).
    destruct (gaze_world e s0) as [(_ & -> & ->)|(id & hit & i1 & _ & Hh & -> & ->)];
      [split; assumption|].
    assert (Hs1 : synced (set_interactionRef i1 s0)) by exact Hs0.
    destruct (localBlocks st !! id) as [b|] eqn:Hl.
    - pose proof (He id b Hh Hl) as Hbed.
      destruct Hs0 as (Hr & _ & Hmr & _).
      rewrite (performAction_bedrock_eq id hit (dateNow e) (set_interactionRef i1 s0) b);
        [split; assumption| | |exact Hbed].
      + simpl. rewrite Hr, Hb. exact Hl.
      + simpl. rewrite Hmr, Hm0. exact Hm.
    - destruct Hs0 as (Hr & _).
      rewrite (performAction_none_eq id hit (dateNow e) (set_interactionRef i1 s0));
        [split; assumption|].
      simpl. rewrite Hr, Hb. exact Hl. }
  destruct W as [Wb Wi].
  destruct (IH (fst (tick e st))) as [-> ->].
  - rewrite tick_mode. exact Hm.
  - rewrite Wb. exact Hall.
  - split; assumption.
Qed.

End FrameFacts2.

Lemma run_world_bounds_witness :
  nonNegative (inventory smallScene)
  /\ nonNegative (inventory (snd (run sinT cosT gazeRun smallScene))).
Proof.
  assert (H : nonNegative (inventory smallScene)).
  { intros k c Hk. change (inventory smallScene) with INITIAL_INVENTORY in Hk.
    unfold INITIAL_INVENTORY in Hk.
    repeat (apply lookup_insert_Some in Hk; destruct Hk as [[_ <-]|[_ Hk]]; [lia|]).
    rewrite lookup_empty in Hk. discriminate. }
  split; [exact H|].
  apply (run_world_bounds sinT cosT gazeRun smallScene), H.
Defined.

Lemma run_keeps_target_and_timer_paired_witness :
  paired smallScene /\ paired (snd (run sinT cosT gazeRun smallScene)).
Proof.
  assert (H : paired smallScene) by (split; reflexivity).
  split; [exact H|].
  exact (run_keeps_target_and_timer_paired sinT cosT gazeRun smallScene H).
Defined.

Lemma bedrock_is_never_mined_witness :
  totalFires (fst (run sinT cosT [frameAt 0 up 100; frameAt 0 up 1100; frameAt 0 up 2100]
                     smallScene)) = 2%nat
  /\ localBlocks (snd (run sinT cosT [frameAt 0 up 100; frameAt 0 up 1100; frameAt 0 up 2100]
                         smallScene)) = localBlocks smallScene.
Proof.
  split; [reflexivity|].
  apply (bedrock_is_never_mined sinT cosT
           [frameAt 0 up 100; frameAt 0 up 1100; frameAt 0 up 2100] smallScene);
    [reflexivity|].
  repeat constructor; intros i b [= <-] [= <-]; reflexivity.
Defined.

(** ** Locomotion, further *)

Lemma targetHeight_floor (x z : Q) (blocks : list BlockData.t) :
  2 <= targetHeight x z blocks.
Proof.
  rewrite targetHeight_max.
  pose proof (Q.le_max_r (groundHeight x z blocks) 1). lra.
Qed.

Lemma differs_same (a : Q) : differs a a = false.
Proof.
  unfold differs. apply Qltb_ge. apply Qabs_Qle_condition. lra.
Qed.

(** X10.  With the pointer on the screen the rotation changes by at most
    0.008 a frame, and inside a turn zone by more than 0.004. *)
Theorem turn_rate_bounds (W mx rot : Q) :
  0 < W -> 0 <= mx -> mx <= W ->
  Qabs (turn W mx rot - rot) <= rotSpeed
  /\ ((mx < W * 0.2 \/ W - W * 0.2 < mx) ->
      rotSpeed * 0.5 < Qabs (turn W mx rot - rot)).
Proof.
  intros HW H0 H1. rewrite (turn_rate_rot W mx rot HW).
  assert (Hz : 0 < W * 0.2) by lra.
  destruct (Qlt_le_dec mx (W * 0.2)) as [Hl|Hl].
  - rewrite (turnRate_left W mx HW Hl).
    pose proof (div_mul (W * 0.2 - mx) (W * 0.2) Hz) as E.
    unfold rotSpeed. split; [nra|]. intros _. nra.
  - destruct (Qlt_le_dec (W - W * 0.2) mx) as [Hr|Hr].
    + rewrite (turnRate_right W mx HW Hr).
      pose proof (div_mul (mx - (W - W * 0.2)) (W * 0.2) Hz) as E.
      unfold rotSpeed. split; [nra|]. intros _. nra.
    + unfold turnRate. rewrite (turn_centre W mx 0 Hl Hr).
      unfold rotSpeed. split; [apply Qabs_Qle_condition; lra|].
      intros [H|H]; lra.
Qed.

Lemma turn_rate_bounds_witness :
  Qabs (turn 1000 50 0 - 0) <= rotSpeed
  /\ rotSpeed * 0.5 < Qabs (turn 1000 50 0 - 0).
Proof.
  destruct (turn_rate_bounds 1000 50 0) as [H1 H2];
    [reflexivity|discriminate|discriminate|].
  split; [exact H1|]. apply H2. left. reflexivity.
Defined.

Lemma frameTarget_unfold (Math_sin Math_cos : Q -> Q) (e : FrameInput) (st : Store) :
  frameTarget Math_sin Math_cos e st
  = targetHeight
      (Vector3.x (fst (locomotion Math_sin Math_cos e (between e st))))
      (Vector3.z (fst (locomotion Math_sin Math_cos e (between e st))))
      (localBlocksRef (between e st)).
Proof. reflexivity. Qed.

Section LocomotionFacts.

Variables Math_sin Math_cos : Q -> Q.

Local Abbreviation tick := (tick Math_sin Math_cos).
Local Abbreviation run := (run Math_sin Math_cos).
Local Abbreviation frameY := (frameY Math_sin Math_cos).
Local Abbreviation frameTarget := (frameTarget Math_sin Math_cos).

Lemma frameTarget_floor (e : FrameInput) (st : Store) : 2 <= frameTarget e st.
Proof. apply targetHeight_floor. Qed.

Lemma tick_height_floor (e : FrameInput) (st : Store) :
  2 <= heightOf st -> 2 <= heightOf (fst (tick e st)) /\ 2 <= frameY e st.
Proof.
  intros H. pose proof (frameTarget_floor e st) as HT.
  pose proof (frameY_step Math_sin Math_cos e st) as EY.
  assert (HY : 2 <= frameY e st).
  { rewrite EY.
    destruct (verticalStep_between (heightOf st) (frameTarget e st)) as [B A].
    destruct (Qlt_le_dec (frameTarget e st) (heightOf st)) as [C|C].
    - destruct (A ltac:(lra)). lra.
    - destruct (B C). lra. }
  split; [|exact HY].
  destruct (tick_height Math_sin Math_cos e st) as [->|[-> _]]; assumption.
Qed.

(** X11.  Every frame steers to a height of at least 2, whatever the world
    holds, so an avatar that starts at height 2 or above is never brought
    below 2, in the player state or on the screen. *)
Theorem avatar_never_below_two (es : list FrameInput) (e : FrameInput) (st : Store) :
  2 <= heightOf st ->
  2 <= frameTarget e st
  /\ 2 <= heightOf (snd (run es st))
  /\ 2 <= Vector3.y (fst (playerGroup (fst (tick e st)))).
Proof.
  intros H. split; [apply frameTarget_floor|]. split.
  - revert st H. induction es as [|e0 es IH]; intros st H; [exact H|].
    rewrite run_cons. simpl snd. apply IH. apply tick_height_floor, H.
  - destruct (tick_height_floor e st H) as [_ HY].
    rewrite frameY_unfold in HY. rewrite tick_unfold.
    destruct (gaze_shape e (advance Math_sin Math_cos e (between e st)))
      as (i & v & b & ->).
    simpl. unfold advance.
    destruct (locomotion Math_sin Math_cos e (between e st)) as [np nr].
    simpl in HY.
    match goal with |- context [if ?c then set_playerState _ _ else _] =>
      destruct c end; cbn [playerGroup set_playerState set_avatar fst Vector3.y];
    (destruct (PlayerState.isWalking (playerStateRef (between e st)));
     [match goal with |- context [Qabs ?t] => pose proof (Qabs_nonneg t) end; nra
     |lra]).
Qed.

(** X12.  An avatar that stands at its target height, is not walking and
    has the pointer in the central band is left where it is: the frame
    keeps the player state's position and rotation, turns the scene node
    to the same rotation, and resets the walk cycle. *)
Theorem resting_avatar_stays (e : FrameInput) (st : Store) :
  0 < innerWidth e ->
  innerWidth e * 0.2 <= fst (pointer e) ->
  fst (pointer e) <= innerWidth e - innerWidth e * 0.2 ->
  overWalkZone e = false ->
  heightOf st == frameTarget e st ->
  playerState (fst (tick e st))
  = PlayerState.mk (PlayerState.position (playerState st))
      (PlayerState.rotation (playerState st)) false
  /\ snd (playerGroup (fst (tick e st))) = PlayerState.rotation (playerState st)
  /\ walkCycle (fst (tick e st)) = 0.
Proof.
  intros HW H1 H2 Hw Hy.
  rewrite tick_unfold.
  assert (EA : advance Math_sin Math_cos e (between e st)
               = set_avatar 0
                   (Vector3.mk (Vector3.x (PlayerState.position (playerState st)))
                      (Vector3.y (PlayerState.position (playerState st)) + 0)
                      (Vector3.z (PlayerState.position (playerState st))),
                    PlayerState.rotation (playerState st))
                   (between e st)).
  { unfold advance, locomotion.
    change (PlayerState.isWalking (playerStateRef (between e st)))
      with (overWalkZone e).
    change (PlayerState.position (playerStateRef (between e st)))
      with (PlayerState.position (playerState st)).
    change (PlayerState.rotation (playerStateRef (between e st)))
      with (PlayerState.rotation (playerState st)).
    change (fst (mousePosRef (between e st))) with (fst (pointer e)).
    rewrite Hw. rewrite (turn_centre _ _ _ H1 H2).
    assert (Hy' : Vector3.y (PlayerState.position (playerState st))
                  == targetHeight (Vector3.x (PlayerState.position (playerState st)))
                       (Vector3.z (PlayerState.position (playerState st)))
                       (localBlocksRef (between e st))).
    { rewrite Hy, frameTarget_unfold. unfold locomotion.
      change (PlayerState.isWalking (playerStateRef (between e st)))
        with (overWalkZone e).
      rewrite Hw. reflexivity. }
    rewrite (verticalStep_at _ _ Hy').
    cbv zeta. cbn [Vector3.x Vector3.y Vector3.z].
    rewrite !differs_same. reflexivity. }
  rewrite EA.
  destruct (gaze_shape e
              (set_avatar 0
                 (Vector3.mk (Vector3.x (PlayerState.position (playerState st)))
                    (Vector3.y (PlayerState.position (playerState st)) + 0)
                    (Vector3.z (PlayerState.position (playerState st))),
                  PlayerState.rotation (playerState st)) (between e st)))
    as (i & v & b & Eg).
  rewrite Eg. split; [cbn; rewrite Hw; reflexivity|].
  split; reflexivity.
Qed.

End LocomotionFacts.

Lemma avatar_never_below_two_witness :
  2 <= heightOf startScene
  /\ 2 <= heightOf (snd (run sinT cosT idleRun startScene)).
Proof.
  assert (H : 2 <= heightOf startScene) by discriminate.
  split; [exact H|].
  exact (proj1 (proj2 (avatar_never_below_two sinT cosT idleRun (frameAway 500 16)
                         startScene H))).
Defined.

Lemma resting_avatar_stays_witness :
  playerState
    (fst (tick sinT cosT (frameAway 500 16)
            (scene MINE WOOD INITIAL_INVENTORY fewBlocks
               (PlayerState.mk (Vector3.mk 2 2 2) 0 false) idle)))
  = PlayerState.mk (Vector3.mk 2 2 2) 0 false.
Proof.
  apply (resting_avatar_stays sinT cosT (frameAway 500 16)
           (scene MINE WOOD INITIAL_INVENTORY fewBlocks
              (PlayerState.mk (Vector3.mk 2 2 2) 0 false) idle));
    first [reflexivity | discriminate].
Defined.

(** ** The world provider *)

Lemma generateChunkData_blocks_elem (chunkX chunkZ : Z) (b : BlockData.t) :
  In b (Chunk3D.blocks (generateChunkData chunkX chunkZ))
  <-> exists i j : nat,
        (i < 32)%nat /\ (j < 32)%nat
        /\ BlockData.x b = (Z.of_nat i + chunkX * 32)%Z
        /\ BlockData.z b = (Z.of_nat j + chunkZ * 32)%Z
        /\ ((BlockData.type b = BEDROCK /\ BlockData.y b = 0%Z
             /\ BlockData.id b
                = "fb-bedrock-" +:+ pretty (BlockData.x b) +:+ "-"
                  +:+ pretty (BlockData.z b))
            \/ (BlockData.type b = GRASS /\ BlockData.y b = 1%Z
                /\ BlockData.id b
                   = "fb-grass-" +:+ pretty (BlockData.x b) +:+ "-"
                     +:+ pretty (BlockData.z b))).
Proof.
  unfold generateChunkData. cbn [Chunk3D.blocks].
  rewrite in_flat_map. split.
  - intros (i & Hi & Hb). apply in_flat_map in Hb. destruct Hb as (j & Hj & Hb).
    apply in_seq in Hi. apply in_seq in Hj.
    exists i, j. split; [lia|]. split; [lia|].
    destruct Hb as [<-|[<-|[]]]; simpl; repeat split; auto.
  - intros (i & j & Hi & Hj & Hx & Hz & H).
    exists i. split; [apply in_seq; lia|].
    apply in_flat_map. exists j. split; [apply in_seq; lia|].
    destruct b as [bid bt bx by_ bz]. simpl in *. subst bx bz.
    destruct H as [(-> & -> & ->)|(-> & -> & ->)]; [left|right; left]; reflexivity.
Qed.

Lemma flat_map_length_const {A B : Type} (f : A -> list B) (k : nat) (l : list A) :
  (forall a, length (f a) = k) -> length (flat_map f l) = (k * length l)%nat.
Proof.
  intros H. induction l as [|a l IH]; simpl; [lia|].
  rewrite length_app, H, IH. lia.
Qed.

Lemma columnSolids_elem (x z : Q) (blocks : list BlockData.t) (y : Z) :
  In y (columnSolids x z blocks)
  <-> exists b : BlockData.t,
        In b blocks /\ BlockData.x b = Math_round x
        /\ BlockData.z b = Math_round z /\ solid (BlockData.type b) = true
        /\ BlockData.y b = y.
Proof.
  unfold columnSolids. rewrite in_map_iff. split.
  - intros (b & Hy & Hb). apply filter_In in Hb. destruct Hb as [Hb Hc].
    apply andb_true_iff in Hc. destruct Hc as [Hc Hs].
    apply andb_true_iff in Hc. destruct Hc as [Hx Hz].
    exists b. repeat split; auto; lia.
  - intros (b & Hb & Hx & Hz & Hs & Hy). exists b. split; [exact Hy|].
    apply filter_In. split; [exact Hb|].
    rewrite Hx, Hz, Hs, !Z.eqb_refl. reflexivity.
Qed.

Lemma generateChunkData_length (chunkX chunkZ : Z) :
  length (Chunk3D.blocks (generateChunkData chunkX chunkZ)) = 2048%nat.
Proof.
  unfold generateChunkData. cbn [Chunk3D.blocks].
  rewrite (flat_map_length_const _ 64).
  - rewrite length_seq. reflexivity.
  - intros a. rewrite (flat_map_length_const _ 2); [|reflexivity].
    rewrite length_seq. reflexivity.
Qed.

Lemma generateChunkData_heights (chunkX chunkZ : Z) (x z : Q) :
  let blocks := Chunk3D.blocks (generateChunkData chunkX chunkZ) in
  let inside :=
    (chunkX * 32 <= Math_round x < chunkX * 32 + 32
     /\ chunkZ * 32 <= Math_round z < chunkZ * 32 + 32)%Z in
  (inside -> getTerrainHeightAt x z blocks = 1%Z)
  /\ (~ inside -> getTerrainHeightAt x z blocks = (-10)%Z).
Proof.
  cbv zeta.
  set (blocks := Chunk3D.blocks (generateChunkData chunkX chunkZ)).
  assert (Hys : forall y, In y (columnSolids x z blocks) -> (y = 0 \/ y = 1)%Z).
  { intros y Hy. apply columnSolids_elem in Hy.
    destruct Hy as (b & Hb & _ & _ & _ & <-).
    apply generateChunkData_blocks_elem in Hb.
    destruct Hb as (i & j & _ & _ & _ & _ & [(_ & ? & _)|(_ & ? & _)]); auto. }
  split.
  - intros [Hx Hz]. rewrite getTerrainHeightAt_fold.
    assert (H1 : In 1%Z (columnSolids x z blocks)).
    { apply columnSolids_elem.
      exists (BlockData.mk
                ("fb-grass-" +:+ pretty (Math_round x) +:+ "-" +:+ pretty (Math_round z))
                GRASS (Math_round x) 1 (Math_round z)).
      split; [|repeat split].
      apply generateChunkData_blocks_elem.
      exists (Z.to_nat (Math_round x - chunkX * 32)),
             (Z.to_nat (Math_round z - chunkZ * 32)).
      simpl. split; [lia|]. split; [lia|]. split; [lia|]. split; [lia|].
      right. repeat split. }
    pose proof (fold_max_upper (columnSolids x z blocks) (-10)) as Hup.
    rewrite List.Forall_forall in Hup. specialize (Hup _ H1).
    destruct (fold_max_attained (columnSolids x z blocks) (-10)) as [E|E]; [lia|].
    destruct (Hys _ E); lia.
  - intros Hno. rewrite getTerrainHeightAt_fold.
    destruct (columnSolids x z blocks) as [|y ys] eqn:E; [reflexivity|].
    exfalso. apply Hno.
    assert (Hy : In y (columnSolids x z blocks)) by (rewrite E; left; reflexivity).
    apply columnSolids_elem in Hy. destruct Hy as (b & Hb & Hx & Hz & _).
    apply generateChunkData_blocks_elem in Hb.
    destruct Hb as (i & j & Hi & Hj & Hbx & Hbz & _). lia.
Qed.

Lemma generateChunkData_targetHeight (chunkX chunkZ : Z) (x z : Q) :
  targetHeight x z (Chunk3D.blocks (generateChunkData chunkX chunkZ)) == 2.
Proof.
  destruct (generateChunkData_heights chunkX chunkZ x z) as [Hin Hout].
  rewrite targetHeight_max, groundHeight_query.
  destruct (decide ((chunkX * 32 <= Math_round x < chunkX * 32 + 32
                     /\ chunkZ * 32 <= Math_round z < chunkZ * 32 + 32)%Z)) as [H|H].
  - rewrite (Hin H). reflexivity.
  - rewrite (Hout H). reflexivity.
Qed.

(** X13.  For chunk indices that keep the block coordinates exact, a
    generated chunk holds 2048 blocks, BEDROCK at height 0 and GRASS at
    height 1 in each of its 32 x 32 columns; the terrain height is 1 over
    every point that rounds into the chunk and the sentinel -10
    elsewhere, and the height the avatar is steered to is 2 everywhere. *)
Theorem generated_chunk_is_flat (chunkX chunkZ : Z) (x z : Q) :
  exactChunk chunkX -> exactChunk chunkZ ->
  let blocks := Chunk3D.blocks (generateChunkData chunkX chunkZ) in
  let inside :=
    (chunkX * 32 <= Math_round x < chunkX * 32 + 32
     /\ chunkZ * 32 <= Math_round z < chunkZ * 32 + 32)%Z in
  length blocks = 2048%nat
  /\ Forall (fun b => (BlockData.type b = BEDROCK /\ BlockData.y b = 0%Z)
                      \/ (BlockData.type b = GRASS /\ BlockData.y b = 1%Z)) blocks
  /\ (inside -> getTerrainHeightAt x z blocks = 1%Z)
  /\ (~ inside -> getTerrainHeightAt x z blocks = (-10)%Z)
  /\ targetHeight x z blocks == 2.
Proof.
  intros _ _. cbv zeta.
  split; [apply generateChunkData_length|].
  split.
  { apply List.Forall_forall. intros b Hb.
    apply generateChunkData_blocks_elem in Hb.
    destruct Hb as (i & j & _ & _ & _ & _ & [(? & ? & _)|(? & ? & _)]); auto. }
  destruct (generateChunkData_heights chunkX chunkZ x z) as [Hin Hout].
  split; [exact Hin|]. split; [exact Hout|].
  apply generateChunkData_targetHeight.
Qed.

Lemma generated_chunk_is_flat_witness :
  getTerrainHeightAt 40 (-3) (Chunk3D.blocks (generateChunkData 1 (-1))) = 1%Z
  /\ getTerrainHeightAt 40 40 (Chunk3D.blocks (generateChunkData 1 (-1))) = (-10)%Z.
Proof.
  assert (E1 : exactChunk 1) by (vm_compute; split; discriminate).
  assert (E2 : exactChunk (-1)) by (vm_compute; split; discriminate).
  destruct (generated_chunk_is_flat 1 (-1) 40 (-3) E1 E2) as (_ & _ & H1 & _).
  destruct (generated_chunk_is_flat 1 (-1) 40 40 E1 E2) as (_ & _ & _ & H2 & _).
  split.
  - apply H1. vm_compute. repeat split; discriminate.
  - apply H2. vm_compute. intros [_ [_ H]]. discriminate H.
Defined.

(** ** Camera and ray *)

Lemma liesBetween_step (a i : Q) : liesBetween a (a + (i - a) * 0.1) i.
Proof.
  unfold liesBetween.
  destruct (Qlt_le_dec i a) as [C|C]; [right|left]; split; lra.
Qed.

Lemma liesBetween_trans (a b c i : Q) :
  liesBetween a b i -> liesBetween b c i -> liesBetween a c i.
Proof.
  unfold liesBetween. intros [[H1 H2]|[H1 H2]] [[H3 H4]|[H3 H4]].
  - left. split; lra.
  - left. split; lra.
  - right. split; lra.
  - right. split; lra.
Qed.

Lemma easeCameraN_succ (ideal : Vector3.t) (n : nat) (cam : Vector3.t) :
  easeCameraN ideal (S n) cam = easeCamera ideal (easeCameraN ideal n cam).
Proof. reflexivity. Qed.

Lemma easeCamera_between (ideal cam : Vector3.t) :
  liesBetween (Vector3.x cam) (Vector3.x (easeCamera ideal cam)) (Vector3.x ideal)
  /\ liesBetween (Vector3.y cam) (Vector3.y (easeCamera ideal cam)) (Vector3.y ideal)
  /\ liesBetween (Vector3.z cam) (Vector3.z (easeCamera ideal cam)) (Vector3.z ideal).
Proof.
  unfold easeCamera. cbn [Vector3.x Vector3.y Vector3.z].
  repeat split; apply liesBetween_step.
Qed.

(** X14.  While the pose the camera is drawn to stays fixed the camera
    never overshoots it and never moves away from it: after any number
    of frames each coordinate lies between where it started and the
    ideal one, and the next frame leaves it between where it is and the
    ideal one. *)
Theorem camera_eases_without_overshoot (ideal cam : Vector3.t) (n : nat) :
  let c := easeCameraN ideal n cam in
  let c' := easeCameraN ideal (S n) cam in
  liesBetween (Vector3.x cam) (Vector3.x c) (Vector3.x ideal)
  /\ liesBetween (Vector3.y cam) (Vector3.y c) (Vector3.y ideal)
  /\ liesBetween (Vector3.z cam) (Vector3.z c) (Vector3.z ideal)
  /\ liesBetween (Vector3.x c) (Vector3.x c') (Vector3.x ideal)
  /\ liesBetween (Vector3.y c) (Vector3.y c') (Vector3.y ideal)
  /\ liesBetween (Vector3.z c) (Vector3.z c') (Vector3.z ideal).
Proof.
  cbv zeta.
  assert (H : forall k : nat,
             liesBetween (Vector3.x cam) (Vector3.x (easeCameraN ideal k cam))
               (Vector3.x ideal)
             /\ liesBetween (Vector3.y cam) (Vector3.y (easeCameraN ideal k cam))
                  (Vector3.y ideal)
             /\ liesBetween (Vector3.z cam) (Vector3.z (easeCameraN ideal k cam))
                  (Vector3.z ideal)).
  { induction k as [|k (IHx & IHy & IHz)].
    - change (easeCameraN ideal 0 cam) with cam. unfold liesBetween.
      repeat split;
        match goal with
        | |- (?a <= ?a /\ ?a <= ?i) \/ _ =>
            destruct (Qlt_le_dec i a); [right|left]; split; lra
        end.
    - rewrite easeCameraN_succ.
      destruct (easeCamera_between ideal (easeCameraN ideal k cam))
        as (Sx & Sy & Sz).
      split; [exact (liesBetween_trans _ _ _ _ IHx Sx)|].
      split; [exact (liesBetween_trans _ _ _ _ IHy Sy)|].
      exact (liesBetween_trans _ _ _ _ IHz Sz). }
  destruct (H n) as (Hx & Hy & Hz).
  split; [exact Hx|]. split; [exact Hy|]. split; [exact Hz|].
  rewrite easeCameraN_succ. apply easeCamera_between.
Qed.

(** X16.  On a window of positive size the pointer's normalized device
    coordinates run from -1 at the left edge to 1 at the right and from 1
    at the top to -1 at the bottom, stay within [-1, 1] while the pointer
    is inside the window, and determine the pointer: the conversion can
    be undone. *)
Theorem toNDC_range_and_inverse (W H mx my : Q) :
  0 < W -> 0 < H ->
  let ndc := toNDC W H (mx, my) in
  (0 <= mx -> mx <= W -> -1 <= fst ndc /\ fst ndc <= 1)
  /\ (0 <= my -> my <= H -> -1 <= snd ndc /\ snd ndc <= 1)
  /\ mx == (fst ndc + 1) / 2 * W
  /\ my == (1 - snd ndc) / 2 * H
  /\ fst (toNDC W H (0, 0)) == -1 /\ snd (toNDC W H (0, 0)) == 1
  /\ fst (toNDC W H (W, H)) == 1 /\ snd (toNDC W H (W, H)) == -1.
Proof.
  intros HW HH. unfold toNDC. cbn [fst snd].
  pose proof (div_mul mx W HW) as Ex. pose proof (div_mul my H HH) as Ey.
  assert (Dx : W / W == 1) by (field; lra).
  assert (Dy : H / H == 1) by (field; lra).
  assert (Zx : 0 / W == 0) by (field; lra).
  assert (Zy : 0 / H == 0) by (field; lra).
  split.
  { intros L U.
    assert (0 <= mx / W) by (apply Qle_shift_div_l; lra).
    assert (mx / W <= 1) by (apply Qle_shift_div_r; lra). split; lra. }
  split.
  { intros L U.
    assert (0 <= my / H) by (apply Qle_shift_div_l; lra).
    assert (my / H <= 1) by (apply Qle_shift_div_r; lra). split; lra. }
  split; [field; lra|]. split; [field; lra|].
  rewrite Zx, Zy, Dx, Dy. repeat split; lra.
Qed.

Lemma toNDC_range_and_inverse_witness :
  fst (toNDC 1000 600 (500, 300)) == 0 /\ snd (toNDC 1000 600 (500, 300)) == 0
  /\ -1 <= fst (toNDC 1000 600 (250, 300)).
Proof.
  destruct (toNDC_range_and_inverse 1000 600 250 300) as (H & _);
    [reflexivity|reflexivity|].
  split; [reflexivity|]. split; [reflexivity|].
  apply H; discriminate.
Defined.

(** ** The gaze button *)

Lemma checkHover_over (i : ButtonInput) (b : Button.t) (rect : DOMRect.t) :
  0 < btnDwellTime i -> btnDisabled i = false -> btnRect i = Some rect ->
  isOver rect (btnMousePos i) = true ->
  let start := buttonSince (btnNowStart i) b in
  (btnDwellTime i <= btnNowElapsed i - start ->
   checkHover i b = (Button.mk None 0, true))
  /\ (btnNowElapsed i - start < btnDwellTime i ->
      checkHover i b
      = (Button.mk (Some start)
           (Qmin ((btnNowElapsed i - start) / btnDwellTime i) 1), false)).
Proof.
  intros Hd Hdis Hr Ho. cbv zeta. unfold checkHover, buttonSince.
  rewrite Hdis, Hr, Ho.
  destruct (Button.startHover b) as [t|]; simpl; split; intros Hc.
  - apply (progress_full _ _ Hd) in Hc. rewrite Hc. reflexivity.
  - rewrite (progress_partial _ _ Hd Hc). reflexivity.
  - apply (progress_full _ _ Hd) in Hc. rewrite Hc. reflexivity.
  - rewrite (progress_partial _ _ Hd Hc). reflexivity.
Qed.

(** X17.  One check of a gaze button clicks exactly when the button is
    enabled and mounted, the pointer is over it and the dwell time has
    passed since the hover began; a click, a disabled button and a
    pointer outside the button all clear the timer and set the progress
    to 0, and an unmounted button is left as it is. *)
Theorem checkHover_clicks_after_dwell (i : ButtonInput) (b : Button.t) :
  0 < btnDwellTime i ->
  (snd (checkHover i b) = true
   <-> btnDisabled i = false
       /\ exists rect : DOMRect.t,
            btnRect i = Some rect /\ isOver rect (btnMousePos i) = true
            /\ btnDwellTime i
               <= btnNowElapsed i - buttonSince (btnNowStart i) b)
  /\ (snd (checkHover i b) = true -> fst (checkHover i b) = Button.mk None 0)
  /\ (btnDisabled i = true -> checkHover i b = (Button.mk None 0, false))
  /\ (forall rect : DOMRect.t,
        btnDisabled i = false -> btnRect i = Some rect ->
        isOver rect (btnMousePos i) = false ->
        checkHover i b = (Button.mk None 0, false))
  /\ (btnDisabled i = false -> btnRect i = None -> checkHover i b = (b, false)).
Proof.
  intros Hd.
  assert (Hdis : btnDisabled i = true -> checkHover i b = (Button.mk None 0, false))
    by (intros H; unfold checkHover; rewrite H; reflexivity).
  assert (Hout : forall rect, btnDisabled i = false -> btnRect i = Some rect ->
                 isOver rect (btnMousePos i) = false ->
                 checkHover i b = (Button.mk None 0, false))
    by (intros r H1 H2 H3; unfold checkHover; rewrite H1, H2, H3; reflexivity).
  assert (Hnull : btnDisabled i = false -> btnRect i = None -> checkHover i b = (b, false))
    by (intros H1 H2; unfold checkHover; rewrite H1, H2; reflexivity).
  split; [|split; [|split; [exact Hdis|split; [exact Hout|exact Hnull]]]].
  - split.
    + intros Hc. destruct (btnDisabled i) eqn:E1.
      { rewrite (Hdis eq_refl) in Hc. discriminate. }
      split; [reflexivity|].
      destruct (btnRect i) as [rect|] eqn:E2.
      2:{ rewrite (Hnull eq_refl eq_refl) in Hc. discriminate. }
      exists rect. split; [reflexivity|].
      destruct (isOver rect (btnMousePos i)) eqn:E3.
      2:{ rewrite (Hout rect eq_refl eq_refl E3) in Hc. discriminate. }
      split; [reflexivity|].
      destruct (checkHover_over i b rect Hd E1 E2 E3) as [_ Hn].
      destruct (Qlt_le_dec (btnNowElapsed i - buttonSince (btnNowStart i) b)
                  (btnDwellTime i)) as [C|C]; [|exact C].
      rewrite (Hn C) in Hc. discriminate.
    + intros (E1 & rect & E2 & E3 & C).
      destruct (checkHover_over i b rect Hd E1 E2 E3) as [Hf _].
      rewrite (Hf C). reflexivity.
  - intros Hc. unfold checkHover in *.
    destruct (btnDisabled i); [discriminate|].
    destruct (btnRect i) as [rect|]; [|discriminate].
    destruct (isOver rect (btnMousePos i)); [|discriminate].
    destruct (Qle_bool _ _); [reflexivity|discriminate].
Qed.

Lemma checkHover_clicks_after_dwell_witness :
  snd (checkHover (checkAt 1100) (Button.mk (Some 100) 0.5)) = true.
Proof.
  apply (checkHover_clicks_after_dwell (checkAt 1100) (Button.mk (Some 100) 0.5));
    [reflexivity|].
  split; [reflexivity|]. exists someRect.
  split; [reflexivity|]. split; [reflexivity|]. discriminate.
Defined.

Lemma buttonEnd_cons (lo : Q) (i : ButtonInput) (ins : list ButtonInput) :
  buttonEnd lo (i :: ins) = buttonEnd (btnNowElapsed i) ins.
Proof.
  unfold buttonEnd. destruct ins as [|i' ins]; [reflexivity|].
  rewrite last_cons. destruct (last (i' :: ins)) eqn:E; [reflexivity|].
  apply last_None in E. discriminate.
Qed.

Lemma buttonClock_end (lo : Q) (ins : list ButtonInput) :
  buttonClock lo ins -> lo <= buttonEnd lo ins.
Proof.
  revert lo. induction ins as [|i ins IH]; intros lo H.
  - unfold buttonEnd. simpl. lra.
  - destruct H as (H1 & H2 & H3). rewrite buttonEnd_cons.
    specialize (IH _ H3). lra.
Qed.

Lemma checkHovers_cons (i : ButtonInput) (ins : list ButtonInput) (b : Button.t) :
  checkHovers (i :: ins) b
  = (fst (checkHovers ins (fst (checkHover i b))),
     ((if snd (checkHover i b) then 1 else 0)
      + snd (checkHovers ins (fst (checkHover i b))))%nat).
Proof.
  simpl. destruct (checkHover i b) as [b' c]. simpl.
  destruct (checkHovers ins b'). reflexivity.
Qed.

(** X18.  Over any run of checks of a button with dwell time [d], on a clock
    that never runs backwards, the number of clicks times [d] is at most
    the time that has passed: two clicks are never less than one dwell
    time apart. *)
Theorem button_clicks_a_dwell_apart (d : Q) (ins : list ButtonInput) :
  forall (lo : Q) (b : Button.t),
    0 < d -> Forall (fun i => btnDwellTime i = d) ins ->
    buttonClock lo ins -> buttonSince lo b <= lo ->
    inject_Z (Z.of_nat (snd (checkHovers ins b))) * d
    <= buttonEnd lo ins - buttonSince lo b.
Proof.
  induction ins as [|i ins IH]; intros lo b Hd Hall Hck Hs.
  - change (inject_Z (Z.of_nat (snd (checkHovers [] b)))) with 0.
    change (buttonEnd lo []) with lo. lra.
  - apply Forall_cons in Hall. destruct Hall as [Hdi Hall].
    destruct Hck as (H1 & H2 & Hck).
    rewrite checkHovers_cons, buttonEnd_cons. cbn [snd].
    rewrite Nat2Z.inj_add, inject_Z_plus.
    pose proof (buttonClock_end _ _ Hck) as Hend.
    assert (Hd' : 0 < btnDwellTime i) by (rewrite Hdi; exact Hd).
    assert (Hsince : buttonSince lo b <= buttonSince (btnNowStart i) b
                     /\ buttonSince (btnNowStart i) b <= btnNowStart i).
    { unfold buttonSince in *. destruct (Button.startHover b); simpl in *; lra. }
    assert (Reset : forall b', Button.startHover b' = None ->
              inject_Z (Z.of_nat (snd (checkHovers ins b'))) * d
              <= buttonEnd (btnNowElapsed i) ins - btnNowElapsed i).
    { intros b' Hb'. specialize (IH (btnNowElapsed i) b' Hd Hall Hck).
      unfold buttonSince in IH. rewrite Hb' in IH. simpl in IH. apply IH. lra. }
    destruct (btnDisabled i) eqn:E1.
    { unfold checkHover. rewrite E1. cbn [fst snd].
      specialize (Reset (Button.mk None 0) eq_refl).
      change (inject_Z (Z.of_nat 0)) with 0. lra. }
    destruct (btnRect i) as [rect|] eqn:E2.
    2:{ unfold checkHover. rewrite E1, E2. cbn [fst snd].
        specialize (IH (btnNowElapsed i) b Hd Hall Hck).
        assert (E : buttonSince (btnNowElapsed i) b <= btnNowElapsed i
                    /\ buttonSince lo b <= buttonSince (btnNowElapsed i) b).
        { unfold buttonSince in *. destruct (Button.startHover b); simpl in *; lra. }
        change (inject_Z (Z.of_nat 0)) with 0. destruct E. specialize (IH ltac:(assumption)). lra. }
    destruct (isOver rect (btnMousePos i)) eqn:E3.
    2:{ unfold checkHover. rewrite E1, E2, E3. cbn [fst snd].
        specialize (Reset (Button.mk None 0) eq_refl).
        change (inject_Z (Z.of_nat 0)) with 0. lra. }
    destruct (checkHover_over i b rect Hd' E1 E2 E3) as [Hf Hn].
    destruct (Qlt_le_dec (btnNowElapsed i - buttonSince (btnNowStart i) b)
                (btnDwellTime i)) as [C|C].
    + rewrite (Hn C). cbn [fst snd].
      remember (buttonSince (btnNowStart i) b) as start eqn:Es.
      specialize (IH (btnNowElapsed i)
                    (Button.mk (Some start)
                       (Qmin ((btnNowElapsed i - start) / btnDwellTime i) 1))
                    Hd Hall Hck).
      change (buttonSince (btnNowElapsed i)
                (Button.mk (Some start)
                   (Qmin ((btnNowElapsed i - start) / btnDwellTime i) 1)))
        with start in IH.
      change (inject_Z (Z.of_nat 0)) with 0. destruct Hsince.
      specialize (IH ltac:(lra)). lra.
    + rewrite (Hf C). cbn [fst snd].
      specialize (Reset (Button.mk None 0) eq_refl).
      change (inject_Z (Z.of_nat 1)) with 1. rewrite Hdi in C. destruct Hsince. lra.
Qed.

Lemma button_clicks_a_dwell_apart_witness :
  inject_Z (Z.of_nat (snd (checkHovers [checkAt 100; checkAt 600; checkAt 1100; checkAt 1600]
                             (Button.mk None 0)))) * 1000
  <= buttonEnd 0 [checkAt 100; checkAt 600; checkAt 1100; checkAt 1600]
     - buttonSince 0 (Button.mk None 0).
Proof.
  apply (button_clicks_a_dwell_apart 1000
           [checkAt 100; checkAt 600; checkAt 1100; checkAt 1600] 0 (Button.mk None 0)).
  - reflexivity.
  - repeat constructor.
  - vm_compute. repeat split; discriminate.
  - discriminate.
Defined.

(** ** The HUD *)

(** X19.  Whenever the HUD shows a turn arrow the avatar turns to that side;
    but the arrows cover 15% of the width and the turn zones 20%, so in
    the band between the avatar turns and no arrow shows. *)
Theorem hud_arrow_implies_turning (W mx rot : Q) :
  0 < W ->
  (leftArrowShown W mx = true -> rot < turn W mx rot)
  /\ (rightArrowShown W mx = true -> turn W mx rot < rot)
  /\ (W * 0.15 <= mx -> mx < W * 0.2 ->
      leftArrowShown W mx = false /\ rot < turn W mx rot)
  /\ (W - W * 0.2 < mx -> mx <= W - W * 0.15 ->
      rightArrowShown W mx = false /\ turn W mx rot < rot).
Proof.
  intros HW. assert (Hz : 0 < W * 0.2) by lra.
  assert (L : mx < W * 0.2 -> rot < turn W mx rot).
  { intros H. rewrite (turn_left _ _ _ H).
    pose proof (div_mul mx (W * 0.2) Hz). unfold rotSpeed. nra. }
  assert (R : W - W * 0.2 < mx -> turn W mx rot < rot).
  { intros H. rewrite (turn_right _ _ _ HW H).
    pose proof (div_pos (mx - (W - W * 0.2)) (W * 0.2) Hz ltac:(lra)).
    unfold rotSpeed. nra. }
  unfold leftArrowShown, rightArrowShown, hudZoneW.
  split; [intros H; apply Qltb_lt in H; apply L; lra|].
  split; [intros H; apply Qltb_lt in H; apply R; lra|].
  split.
  - intros H1 H2. split; [apply Qltb_ge; lra|apply L, H2].
  - intros H1 H2. split; [apply Qltb_ge; lra|apply R, H1].
Qed.

Lemma hud_arrow_implies_turning_witness :
  leftArrowShown 1000 170 = false /\ 0 < turn 1000 170 0.
Proof.
  apply (hud_arrow_implies_turning 1000 170 0); [reflexivity|discriminate|reflexivity].
Defined.

Lemma hotbarItems_elem (inv : Inventory) (k : string) :
  k ∈ hotbarItems inv <-> exists c : Z, inv !! k = Some c /\ (0 < c)%Z.
Proof.
  unfold hotbarItems. rewrite list_elem_of_fmap. split.
  - intros ([k' c] & -> & H). apply list_elem_of_filter in H.
    destruct H as [Hc H]. apply elem_of_map_to_list in H.
    exists c. split; [exact H|]. simpl in Hc. lia.
  - intros (c & H & Hc). exists (k, c). split; [reflexivity|].
    apply list_elem_of_filter. split; [simpl; lia|].
    apply elem_of_map_to_list, H.
Qed.

(** X20.  The hotbar offers exactly the inventory's types with a positive
    count, each once, and the six basic types when no count is positive;
    so a type is offered right after a block of it was mined. *)
Theorem hotbar_offers_positive_counts (inv : Inventory) (k : string) :
  (k ∈ hotbarItems inv <-> exists c : Z, inv !! k = Some c /\ (0 < c)%Z)
  /\ NoDup (hotbarItems inv)
  /\ ((exists (k' : string) (c : Z), inv !! k' = Some c /\ (0 < c)%Z) ->
      displayItems inv = hotbarItems inv)
  /\ ((forall (k' : string) (c : Z), inv !! k' = Some c -> (c <= 0)%Z) ->
      displayItems inv = basicItems)
  /\ (forall (index : nat) (hit : Intersection.t) (dateNow : Z) (st : Store)
        (b : BlockData.t),
        inv = inventory st -> synced st -> mode st = MINE ->
        localBlocks st !! index = Some b -> BlockData.type b <> BEDROCK ->
        nonNegative inv ->
        BlockType_key (BlockData.type b)
        ∈ displayItems (inventory (performAction index hit dateNow st))).
Proof.
  split; [apply hotbarItems_elem|]. split.
  { unfold hotbarItems. apply NoDup_fmap_fst.
    - intros k0 c1 c2 H1 H2. apply list_elem_of_filter in H1, H2.
      destruct H1 as [_ H1], H2 as [_ H2].
      apply elem_of_map_to_list in H1, H2. congruence.
    - apply NoDup_filter, NoDup_map_to_list. }
  assert (Hsome : forall inv0 : Inventory,
            (exists (k' : string) (c : Z), inv0 !! k' = Some c /\ (0 < c)%Z) ->
            displayItems inv0 = hotbarItems inv0).
  { intros inv0 (k' & c & H & Hc). unfold displayItems.
    assert (Hin : k' ∈ hotbarItems inv0) by (apply hotbarItems_elem; eauto).
    destruct (hotbarItems inv0) as [|a l]; [inversion Hin|reflexivity]. }
  split; [apply Hsome|]. split.
  { intros Hall. unfold displayItems.
    destruct (hotbarItems inv) as [|a l] eqn:E; [reflexivity|].
    assert (Hin : a ∈ hotbarItems inv) by (rewrite E; left).
    apply hotbarItems_elem in Hin. destruct Hin as (c & H & Hc).
    specialize (Hall _ _ H). lia. }
  intros index hit dateNow st b -> (Hb & Hi & Hmo & _) Hm Hl Hne Hnn.
  rewrite (performAction_mine_eq index hit dateNow st b)
    by (first [rewrite Hb; exact Hl | rewrite Hmo; exact Hm | exact Hne]).
  simpl. rewrite Hi.
  set (key := BlockType_key (BlockData.type b)).
  assert (Hpos : (0 < or0 (inventory st !! key) + 1)%Z).
  { destruct (inventory st !! key) as [c|] eqn:Hc; simpl; [|lia].
    specialize (Hnn _ _ Hc). destruct (Z.eqb_spec c 0); lia. }
  rewrite Hsome.
  - apply hotbarItems_elem. eexists. split; [apply lookup_insert_eq|exact Hpos].
  - eexists key, _. split; [apply lookup_insert_eq|exact Hpos].
Qed.

Lemma hotbar_offers_positive_counts_witness :
  displayItems INITIAL_INVENTORY = hotbarItems INITIAL_INVENTORY
  /\ displayItems ∅ = basicItems.
Proof.
  destruct (hotbar_offers_positive_counts INITIAL_INVENTORY "WOOD")
    as (_ & _ & H1 & _).
  destruct (hotbar_offers_positive_counts ∅ "WOOD") as (_ & _ & _ & H2 & _).
  split.
  - apply H1. exists "WOOD", 5%Z. split; [reflexivity|lia].
  - apply H2. intros k' c H. rewrite lookup_empty in H. discriminate.
Defined.

(** ** The cursor ring *)

(** X21.  For a cursor of size 16 or more the ring's dash offset falls
    linearly from the full circumference at progress 0 to nothing at
    progress 1 and stays between the two; below size 16 the ring's radius
    is negative. *)
Theorem ring_offset_tracks_progress (PI size p : Q) :
  0 < PI ->
  strokeDashoffset PI size p == ringCircumference PI size * (1 - p)
  /\ strokeDashoffset PI size 0 == ringCircumference PI size
  /\ strokeDashoffset PI size 1 == 0
  /\ (16 <= size -> 0 <= p -> p <= 1 ->
      0 <= strokeDashoffset PI size p
      /\ strokeDashoffset PI size p <= ringCircumference PI size)
  /\ (16 < size -> forall p' : Q, p < p' ->
      strokeDashoffset PI size p' < strokeDashoffset PI size p)
  /\ (size < 16 -> ringCircumference PI size < 0).
Proof.
  intros HP.
  assert (Hsign : (16 <= size -> 0 <= ringCircumference PI size)
                  /\ (16 < size -> 0 < ringCircumference PI size)
                  /\ (size < 16 -> ringCircumference PI size < 0)).
  { unfold ringCircumference. cbv zeta.
    assert (E : size / 2 == size * (1 # 2)) by field. rewrite !E.
    split; [|split]; intros Hs.
    - apply Qmult_le_0_compat; lra.
    - apply Qmult_lt_0_compat; lra.
    - assert (0 < (4 * 2 - size * (1 # 2)) * 2 * PI)
        by (apply Qmult_lt_0_compat; lra).
      nra. }
  destruct Hsign as (S0 & S1 & S2).
  unfold strokeDashoffset. cbv zeta.
  revert S0 S1 S2. generalize (ringCircumference PI size). intros c S0 S1 S2.
  split; [ring|]. split; [ring|]. split; [ring|].
  split; [intros Hs H0 H1; specialize (S0 Hs); split; nra|].
  split; [|exact S2].
  intros Hs p' Hp. specialize (S1 Hs).
  assert (0 < (p' - p) * c) by (apply Qmult_lt_0_compat; lra). nra.
Qed.

Lemma ring_offset_tracks_progress_witness :
  0 <= strokeDashoffset (22 # 7) 48 0.5.
Proof.
  apply (ring_offset_tracks_progress (22 # 7) 48 0.5);
    first [reflexivity | discriminate].
Defined.

(** ** App's handlers *)

Lemma toggleDwellTime_dwell (s : GameSettings.t) :
  GameSettings.dwellTime (toggleDwellTime s) = 500
  \/ GameSettings.dwellTime (toggleDwellTime s) = 1000.
Proof. unfold toggleDwellTime. simpl. destruct (Qeq_bool _ _); auto. Qed.

(** X22.  Once the speed button has been pressed the dwell time is 500 or
    1000, hence positive, whatever it was; from either value two presses
    give it back; and no press touches another setting. *)
Theorem toggleDwellTime_keeps_dwell_positive (n : nat) (s : GameSettings.t) :
  let s' := toggleDwellTimeN (S n) s in
  (GameSettings.dwellTime s' = 500 \/ GameSettings.dwellTime s' = 1000)
  /\ 0 < GameSettings.dwellTime s'
  /\ GameSettings.cursorSize s' = GameSettings.cursorSize s
  /\ GameSettings.highContrast s' = GameSettings.highContrast s
  /\ GameSettings.moveSpeed s' = GameSettings.moveSpeed s
  /\ GameSettings.turnSpeed s' = GameSettings.turnSpeed s
  /\ GameSettings.dwellTime (toggleDwellTime (toggleDwellTime s'))
     = GameSettings.dwellTime s'.
Proof.
  cbv zeta.
  assert (Hfix : forall s1 : GameSettings.t,
             GameSettings.dwellTime s1 = 500 \/ GameSettings.dwellTime s1 = 1000 ->
             GameSettings.dwellTime (toggleDwellTime (toggleDwellTime s1))
             = GameSettings.dwellTime s1).
  { intros s1 [E|E]; unfold toggleDwellTime; cbn [GameSettings.dwellTime];
      rewrite E; reflexivity. }
  assert (Hstep : forall s1 : GameSettings.t,
             toggleDwellTimeN (S n) s1 = toggleDwellTime (toggleDwellTimeN n s1))
    by reflexivity.
  rewrite Hstep.
  assert (Hkeep : forall (m : nat),
             GameSettings.cursorSize (toggleDwellTimeN m s) = GameSettings.cursorSize s
             /\ GameSettings.highContrast (toggleDwellTimeN m s)
                = GameSettings.highContrast s
             /\ GameSettings.moveSpeed (toggleDwellTimeN m s) = GameSettings.moveSpeed s
             /\ GameSettings.turnSpeed (toggleDwellTimeN m s) = GameSettings.turnSpeed s).
  { induction m as [|m IH]; [repeat split|].
    change (toggleDwellTimeN (S m) s) with (toggleDwellTime (toggleDwellTimeN m s)).
    unfold toggleDwellTime at 1 2 3 4.
    cbn [GameSettings.cursorSize GameSettings.highContrast
         GameSettings.moveSpeed GameSettings.turnSpeed].
    exact IH. }
  destruct (Hkeep (S n)) as (C & Hc & M & T). rewrite Hstep in C, Hc, M, T.
  pose proof (toggleDwellTime_dwell (toggleDwellTimeN n s)) as D.
  split; [exact D|].
  split; [destruct D as [E|E]; rewrite E; reflexivity|].
  split; [exact C|]. split; [exact Hc|]. split; [exact M|]. split; [exact T|].
  apply Hfix, D.
Qed.

(** ** The cursor and the loaded chunk *)

Lemma gaze_hover (e : FrameInput) (st : Store) (h : bool * Q) :
  cursorOk h -> cursorOk (hoverAfter (snd (gaze e st)) h).
Proof.
  intros Hh. unfold gaze.
  destruct (match localBlocksRef st with [] => [] | _ => intersects e end)
    as [|hit hits]; [split; [reflexivity|reflexivity]|].
  destruct (Intersection.instanceId hit) as [i|]; [|exact Hh].
  destruct (i <? length (localBlocksRef st))%nat; [|exact Hh].
  cbv zeta.
  destruct (truthy _) as [t0|]; [|exact Hh].
  destruct (Qle_bool 1 _) eqn:E.
  - split; reflexivity.
  - cbn [snd hoverAfter fold_left]. split; cbn [fst snd]; [|discriminate].
    apply Qnot_le_lt. intros C. apply Qle_bool_iff in C. congruence.
Qed.

Section CursorFacts.

Variables Math_sin Math_cos : Q -> Q.

Local Abbreviation tick := (tick Math_sin Math_cos).
Local Abbreviation run := (run Math_sin Math_cos).

Lemma run_cursorOk (es : list FrameInput) (st : Store) (h : bool * Q) :
  cursorOk h -> cursorOk (cursorAfter (fst (run es st)) h).
Proof.
  revert st h. induction es as [|e es IH]; intros st h Hh; [exact Hh|].
  rewrite run_cons. cbn [fst]. unfold cursorAfter. cbn [fold_left].
  apply IH.
  destruct (tick_gaze Math_sin Math_cos e st) as (s0 & -> & _).
  apply gaze_hover, Hh.
Qed.

(** X23.  With a positive dwell time, whatever the frames, the progress
    App holds for the cursor after them is below 1, and it is 0 whenever
    no block is hovered; so the cursor is shown as dwelling exactly when
    a block is hovered. *)
Theorem cursor_never_shows_full (es : list FrameInput) (st : Store) :
  0 < GameSettings.dwellTime (settings st) ->
  let h := cursorAfter (fst (run es st)) (false, 0) in
  snd h < 1
  /\ (fst h = false -> snd h = 0)
  /\ isDwelling h = fst h.
Proof.
  intros _. cbv zeta.
  destruct (run_cursorOk es st (false, 0)) as [H1 H2];
    [split; reflexivity|].
  split; [exact H1|]. split; [exact H2|].
  unfold isDwelling. revert H2.
  generalize (cursorAfter (fst (run es st)) (false, 0)). intros [b p] H2.
  cbn [fst snd] in *. destruct b; [reflexivity|].
  rewrite (H2 eq_refl). reflexivity.
Qed.

(** X24.  Once a generated chunk has been handed to the scene, the next
    frame steers the avatar to height 2 wherever it stands or walks; an
    avatar at height 2 stays there and one above comes down by at most a
    tenth without passing 2. *)
Theorem loaded_chunk_steers_to_two (chunkX chunkZ : Z) (e : FrameInput)
    (st : Store) :
  let st' := loadChunk (Some (generateChunkData chunkX chunkZ)) st in
  frameTarget Math_sin Math_cos e st' == 2
  /\ (heightOf st == 2 -> frameY Math_sin Math_cos e st' = heightOf st)
  /\ (2 <= heightOf st ->
      2 <= frameY Math_sin Math_cos e st'
      /\ heightOf st - 0.1 <= frameY Math_sin Math_cos e st'
      /\ frameY Math_sin Math_cos e st' <= heightOf st).
Proof.
  cbv zeta.
  set (st' := loadChunk (Some (generateChunkData chunkX chunkZ)) st).
  assert (HT : frameTarget Math_sin Math_cos e st' == 2).
  { rewrite frameTarget_unfold.
    change (localBlocksRef (between e st'))
      with (Chunk3D.blocks (generateChunkData chunkX chunkZ)).
    apply generateChunkData_targetHeight. }
  assert (HY : frameY Math_sin Math_cos e st'
               = verticalStep (heightOf st) (frameTarget Math_sin Math_cos e st'))
    by reflexivity.
  split; [exact HT|]. rewrite HY.
  revert HT. generalize (frameTarget Math_sin Math_cos e st'). intros T HT.
  split.
  - intros H. apply verticalStep_at. rewrite H, HT. reflexivity.
  - intros H. unfold verticalStep. case_Qltb; lra.
Qed.

End CursorFacts.

Lemma loaded_chunk_steers_to_two_witness :
  frameY sinT cosT (frameWalk 16)
    (loadChunk (Some (generateChunkData 0 0)) startScene)
  <= heightOf startScene.
Proof.
  apply (loaded_chunk_steers_to_two sinT cosT 0 0 (frameWalk 16) startScene).
  vm_compute. discriminate.
Defined.

Lemma cursor_never_shows_full_witness :
  snd (cursorAfter (fst (run sinT cosT gazeRun smallScene)) (false, 0)) < 1.
Proof.
  apply (cursor_never_shows_full sinT cosT gazeRun smallScene).
  reflexivity.
Defined.
